(** * The Source §1 evaluator with syntactic analysis

    A shallow embedding of [src/evaluators/source-1-syntactic-analysis.js]:
    the evaluator of SICP JS 4.1.7 that first analyses a syntax tree into an
    execution function and then runs that function against environments.

    Modelling choices, each taken from the way the program is written:

    - Syntax trees are the tagged lists handed over by the parser; one
      constructor of [stmt] per tag that [analyze] dispatches on, and
      [OtherNode] for everything else.
    - An execution function ([env => ...]) is a JavaScript closure.  Every
      such closure of the source is one constructor of [exe], holding the
      constants the closure captured; [exec] gives the body of the closure.
    - Frames are shared and mutated in place ([set_head] in
      [set_name_value]), and are captured by function values.  Frames
      therefore live in a store ([heap]) and an environment is the chain of
      the locations of its frames, innermost first.
    - [error(...)] aborts the evaluation: results are in the error monad
      [outcome].  The evaluated program may loop, so running a function
      body takes fuel; [OutOfFuel] is not an error of the program.
    - Numbers and the primitive functions belong to the host
      ([apply_in_underlying_javascript], [math_PI]); they are parameters. *)

From stdpp Require Import base list strings.

Set Warnings "-register-all".

(** An environment is the chain of the locations of its frames, innermost
    first; [the_empty_environment] is [null]. *)
Abbreviation environment := (list nat).

(** ** Data *)

Section Model.

Context {number : Type}.

(** Self-evaluating nodes: [is_number], [is_string], [is_boolean]. *)
Inductive literal :=
| LNumber (n : number)
| LString (s : string)
| LBoolean (b : bool).

(** Tagged lists.  The parameters of a function definition are name nodes
    in the source; they are kept here by their [name_of_name]. *)
Inductive stmt :=
| Literal (l : literal)
| Name (name : string)
| ConstantDeclaration (name : string) (value : stmt)
| ConditionalExpression (pred consequent alt : stmt)
| FunctionDefinition (parameters : list string) (body : stmt)
| Sequence (stmts : list stmt)
| Block (body : stmt)
| ReturnStatement (expression : stmt)
| Application (operator : stmt) (operands : list stmt)
| OtherNode.

(** The closures returned by the [analyze_*] functions. *)
Inductive exe :=
| XSelf (l : literal)
| XName (name : string)
| XConst (name : string) (vfun : exe)
| XCond (pfun cfun afun : exe)
| XFunDef (vars : list string) (locals : list string) (body_fun : exe)
| XUndefined
| XSeq (fun1 fun2 : exe)
| XBlock (locals : list string) (body_func : exe)
| XReturn (retval_func : exe)
| XApp (function_func : exe) (arg_funcs : list exe).

(** The entries of the table [primitive_functions]. *)
Inductive primitive :=
| prim_display | prim_error
| prim_plus | prim_minus | prim_times | prim_divide | prim_modulo
| prim_eq | prim_neq | prim_lt | prim_le | prim_gt | prim_ge
| prim_not.

(** Values.  [VReturn] is [list("return_value", content)], [VCompound] is
    [list("compound_function", parameters, locals, body, env)], [VPrimitive]
    is [list("primitive", impl)], and [VNoValueYet] is the function object
    [no_value_yet], which is compared by identity. *)
Inductive value :=
| VNumber (n : number)
| VString (s : string)
| VBoolean (b : bool)
| VUndefined
| VNoValueYet
| VPrimitive (impl : primitive)
| VCompound (parameters : list string) (locals : list string)
            (body : exe) (env : environment)
| VReturn (content : value).

(** [make_frame(names, values)]; a slot is [pair(value, is_variable)]. *)
Record frame := make_frame {
  frame_names : list string;
  frame_values : list (value * bool)
}.

Inductive error :=
| UnboundName (name : string)
| NameUsedBeforeDeclaration (name : string)
| MultipleDeclarations (name : string)
| TooManyArguments (names : list string) (vals : list value)
| TooFewArguments (names : list string) (vals : list value)
| UnknownStatementType
| UnknownFunctionType
| InternalNameNotFound
| ReturnNotAllowed
| HeadOfNonPair
| DanglingFrame
| HostError (message : string).

Inductive outcome (A : Type) :=
| Ok (a : A)
| Err (e : error)
| OutOfFuel.

End Model.

Arguments literal : clear implicits.
Arguments stmt : clear implicits.
Arguments exe : clear implicits.
Arguments value : clear implicits.
Arguments frame : clear implicits.
Arguments error : clear implicits.
Arguments outcome : clear implicits.
Arguments Ok {number A} a.
Arguments Err {number A} e.
Arguments OutOfFuel {number A}.

(** The store of frames; a location is a position in it. *)
Abbreviation heap number := (list (frame number)).

Notation "'perform' p <~ e ;; k" :=
  (match e with
   | Ok p => k
   | Err err => Err err
   | OutOfFuel => OutOfFuel
   end)
  (at level 10, p pattern, e at level 99, k at level 200, only parsing).

Section Evaluator.

Context {number : Type}.
Variable math_PI : number.
Variable apply_in_underlying_javascript :
  primitive → list (value number) → outcome number (value number).

Local Abbreviation res A := (outcome number A).

(** ** Local names *)

(** [member(x, ys)] is non-null exactly when [x] occurs in [ys]. *)
Definition member (x : string) (ys : list string) : bool :=
  bool_decide (x ∈ ys).

Fixpoint insert_all (xs ys : list string) : res (list string) :=
  match xs with
  | [] => Ok ys
  | x :: xs' =>
      if member x ys
      then Err (MultipleDeclarations x)
      else perform rest <~ insert_all xs' ys ;; Ok (x :: rest)
  end.

Fixpoint local_names (s : stmt number) : res (list string) :=
  match s with
  | Sequence stmts =>
      (fix of_statements (stmts : list (stmt number)) : res (list string) :=
         match stmts with
         | [] => Ok []
         | first_statement :: rest_statements =>
             perform xs <~ local_names first_statement ;;
             perform ys <~ of_statements rest_statements ;;
             insert_all xs ys
         end) stmts
  | ConstantDeclaration name _ => Ok [name]
  | _ => Ok []
  end.

(** ** Environments *)

Definition the_empty_environment : environment := [].

Definition is_no_value_yet (v : value number) : bool :=
  match v with VNoValueYet => true | _ => false end.

(** [scan] of [lookup_name_value]; [enclosing] is the result of
    [env_loop(enclosing_environment(env))], which the source calls when the
    names of the frame are exhausted. *)
Fixpoint lookup_scan (name : string) (enclosing : res (value number))
    (names : list string) (vals : list (value number * bool))
    : res (value number) :=
  match names with
  | [] => enclosing
  | n :: names' =>
      if decide (name = n)
      then match vals with
           | [] => Err HeadOfNonPair
           | slot :: _ => Ok (fst slot)
           end
      else match vals with
           | [] => Err HeadOfNonPair
           | _ :: vals' => lookup_scan name enclosing names' vals'
           end
  end.

(** [env_loop] of [lookup_name_value].  A location outside the store has
    no counterpart in the source, where a frame is held by reference; the
    model answers [DanglingFrame]. *)
Fixpoint env_loop (name : string) (h : heap number) (env : environment)
    : res (value number) :=
  match env with
  | [] => Err (UnboundName name)
  | l :: enclosing_environment =>
      match h !! l with
      | None => Err DanglingFrame
      | Some frame =>
          perform value <~ lookup_scan name (env_loop name h enclosing_environment)
                     (frame_names frame) (frame_values frame) ;;
          if is_no_value_yet value
          then Err (NameUsedBeforeDeclaration name)
          else Ok value
      end
  end.

Definition lookup_name_value (name : string) (env : environment)
    (h : heap number) : res (value number) :=
  env_loop name h env.

(** [scan] of [set_name_value]: [set_head(head(vals), val)] on the first
    slot whose name matches. *)
Fixpoint set_scan (name : string) (val : value number)
    (names : list string) (vals : list (value number * bool))
    : res (list (value number * bool)) :=
  match names with
  | [] => Err InternalNameNotFound
  | n :: names' =>
      if decide (name = n)
      then match vals with
           | [] => Err HeadOfNonPair
           | slot :: vals' => Ok ((val, snd slot) :: vals')
           end
      else match vals with
           | [] => Err HeadOfNonPair
           | slot :: vals' =>
               perform rest <~ set_scan name val names' vals' ;; Ok (slot :: rest)
           end
  end.

Definition set_name_value (name : string) (val : value number)
    (env : environment) (h : heap number) : res (heap number) :=
  match env with
  | [] => Err HeadOfNonPair
  | l :: _ =>
      match h !! l with
      | None => Err DanglingFrame
      | Some frame =>
          perform vals <~ set_scan name val (frame_names frame) (frame_values frame) ;;
          Ok (<[l := make_frame (frame_names frame) vals]> h)
      end
  end.

(** [extend_environment] allocates the new frame at the end of the store
    and returns the environment that starts with it. *)
Definition extend_environment (names : list string)
    (vals : list (value number)) (base_env : environment) (h : heap number)
    : res (environment * heap number) :=
  let is_variable := false in
  if decide (length names = length vals)
  then Ok (length h :: base_env,
           h ++ [make_frame names (map (λ x, (x, is_variable)) vals)])
  else if decide (length names < length vals)
  then Err (TooManyArguments names vals)
  else Err (TooFewArguments names vals).

(** ** Values of the evaluator *)

Definition value_of_literal (l : literal number) : value number :=
  match l with
  | LNumber n => VNumber n
  | LString s => VString s
  | LBoolean b => VBoolean b
  end.

Definition is_true (x : value number) : bool :=
  match x with VBoolean true => true | _ => false end.

Definition make_compound_function (parameters locals : list string)
    (body : exe number) (env : environment) : value number :=
  VCompound parameters locals body env.

Definition make_return_value (content : value number) : value number :=
  VReturn content.

Definition is_return_value (v : value number) : bool :=
  match v with VReturn _ => true | _ => false end.

Definition return_value_content (v : value number) : res (value number) :=
  match v with VReturn content => Ok content | _ => Err HeadOfNonPair end.

Definition no_value_yet : value number := VNoValueYet.

Definition apply_primitive_function (impl : primitive)
    (argument_list : list (value number)) : res (value number) :=
  apply_in_underlying_javascript impl argument_list.

(** ** Execution *)

(** [map(f, xs)] for an [f] that may fail and that threads the store,
    applied from the head of the list on. *)
Section MapExec.
Context {A B : Type} (f : A → heap number → res (B * heap number)).

Fixpoint map_exec (xs : list A) (h : heap number)
    : res (list B * heap number) :=
  match xs with
  | [] => Ok ([], h)
  | x :: xs' =>
      perform (y, h1) <~ f x h ;;
      perform (ys, h2) <~ map_exec xs' h1 ;;
      Ok (y :: ys, h2)
  end.
End MapExec.

(** The bodies of the closures returned by the [analyze_*] functions.
    [execute_application] is the one place where a closure runs code that
    is not a part of itself; it is passed in and tied below.  The closure
    of a block holds [temp_values], one sentinel per local name; it is
    rebuilt here from [locals]. *)
Section Exec.
Variable execute_application :
  value number → list (value number) → heap number →
  res (value number * heap number).

Fixpoint exec (x : exe number) (env : environment) (h : heap number)
    {struct x} : res (value number * heap number) :=
  match x with
  | XSelf stmt => Ok (value_of_literal stmt, h)
  | XName name =>
      perform v <~ lookup_name_value name env h ;; Ok (v, h)
  | XConst name vfun =>
      perform (v, h1) <~ exec vfun env h ;;
      perform h2 <~ set_name_value name v env h1 ;;
      Ok (VUndefined, h2)
  | XCond pfun cfun afun =>
      perform (p, h1) <~ exec pfun env h ;;
      if is_true p then exec cfun env h1 else exec afun env h1
  | XFunDef vars locals body_fun =>
      Ok (make_compound_function vars locals body_fun env, h)
  | XUndefined => Ok (VUndefined, h)
  | XSeq fun1 fun2 =>
      perform (fun1_val, h1) <~ exec fun1 env h ;;
      if is_return_value fun1_val
      then Ok (fun1_val, h1)
      else exec fun2 env h1
  | XBlock locals body_func =>
      let temp_values := map (λ _, no_value_yet) locals in
      perform (env', h1) <~ extend_environment locals temp_values env h ;;
      exec body_func env' h1
  | XReturn retval_func =>
      perform (v, h1) <~ exec retval_func env h ;;
      Ok (make_return_value v, h1)
  | XApp function_func arg_funcs =>
      perform (f, h1) <~ exec function_func env h ;;
      perform (args, h2) <~
        map_exec (λ arg_func h', exec arg_func env h') arg_funcs h1 ;;
      execute_application f args h2
  end.
End Exec.

(** [fuel] bounds the depth of nested calls of compound functions; it is
    taken only where the body of the function is run. *)
Fixpoint execute_application (fuel : nat) (f : value number)
    (args : list (value number)) (h : heap number)
    : res (value number * heap number) :=
  match f with
  | VPrimitive impl =>
      perform v <~ apply_primitive_function impl args ;; Ok (v, h)
  | VCompound parameters locals body env =>
      perform names <~ insert_all parameters locals ;;
      let temp_values := map (λ _, no_value_yet) locals in
      let values := args ++ temp_values in
      perform (env', h1) <~ extend_environment names values env h ;;
      match fuel with
      | 0 => OutOfFuel
      | S fuel' =>
          perform (result, h2) <~
            exec (execute_application fuel') body env' h1 ;;
          if is_return_value result
          then perform content <~ return_value_content result ;;
               Ok (content, h2)
          else Ok (VUndefined, h2)
      end
  | _ => Err UnknownFunctionType
  end.

Definition run (fuel : nat) : exe number → environment → heap number →
    res (value number * heap number) :=
  exec (execute_application fuel).

(** ** Analysis *)

Section MapRes.
Context {A B : Type} (f : A → res B).

Fixpoint map_res (xs : list A) : res (list B) :=
  match xs with
  | [] => Ok []
  | x :: xs' =>
      perform y <~ f x ;;
      perform ys <~ map_res xs' ;;
      Ok (y :: ys)
  end.
End MapRes.

Definition sequentially (fun1 fun2 : exe number) : exe number :=
  XSeq fun1 fun2.

Fixpoint loop (first_fun : exe number) (rest_funs : list (exe number))
    : exe number :=
  match rest_funs with
  | [] => first_fun
  | f :: rest => loop (sequentially first_fun f) rest
  end.

(** [analyze_sequence], from the list [funs = map(analyze, stmts)] on;
    the map itself is part of the recursion of [analyze]. *)
Definition analyze_sequence (funs : list (exe number)) : exe number :=
  match funs with
  | [] => XUndefined
  | f :: rest => loop f rest
  end.

Fixpoint analyze (s : stmt number) : res (exe number) :=
  match s with
  | Literal l => Ok (XSelf l)
  | Name name => Ok (XName name)
  | ConstantDeclaration name value =>
      perform vfun <~ analyze value ;;
      Ok (XConst name vfun)
  | ConditionalExpression pred consequent alt =>
      perform pfun <~ analyze pred ;;
      perform cfun <~ analyze consequent ;;
      perform afun <~ analyze alt ;;
      Ok (XCond pfun cfun afun)
  | FunctionDefinition vars body =>
      perform locals <~ local_names body ;;
      perform body_fun <~ analyze body ;;
      Ok (XFunDef vars locals body_fun)
  | Sequence stmts =>
      perform funs <~ map_res analyze stmts ;;
      Ok (analyze_sequence funs)
  | Block body =>
      perform locals <~ local_names body ;;
      perform body_func <~ analyze body ;;
      Ok (XBlock locals body_func)
  | ReturnStatement expression =>
      perform retval_func <~ analyze expression ;;
      Ok (XReturn retval_func)
  | Application operator operands =>
      perform function_func <~ analyze operator ;;
      perform arg_funcs <~ map_res analyze operands ;;
      Ok (XApp function_func arg_funcs)
  | OtherNode => Err UnknownStatementType
  end.

Definition evaluate (fuel : nat) (exp : stmt number) (env : environment)
    (h : heap number) : res (value number * heap number) :=
  perform x <~ analyze exp ;;
  run fuel x env h.

(** ** The global environment *)

Definition primitive_functions : list (string * primitive) :=
  [ ("display", prim_display); ("error", prim_error);
    ("+", prim_plus); ("-", prim_minus); ("*", prim_times);
    ("/", prim_divide); ("%", prim_modulo);
    ("===", prim_eq); ("!==", prim_neq);
    ("<", prim_lt); ("<=", prim_le); (">", prim_gt); (">=", prim_ge);
    ("!", prim_not) ]%string.

Definition primitive_constants : list (string * value number) :=
  [ ("undefined", VUndefined); ("math_PI", VNumber math_PI) ]%string.

Definition setup_environment : res (environment * heap number) :=
  let primitive_function_names := map fst primitive_functions in
  let primitive_function_values :=
    map (λ f, VPrimitive (snd f)) primitive_functions in
  let primitive_constant_names := map fst primitive_constants in
  let primitive_constant_values := map snd primitive_constants in
  extend_environment
    (primitive_function_names ++ primitive_constant_names)
    (primitive_function_values ++ primitive_constant_values)
    the_empty_environment [].

(** The module constant [the_global_environment] together with the store
    that holds its frame.  [setup_environment] does not fail (lemma
    [setup_environment_ok]). *)
Definition the_global_state : environment * heap number :=
  match setup_environment with
  | Ok s => s
  | _ => (the_empty_environment, [])
  end.

Definition the_global_environment : environment := fst the_global_state.
Definition the_global_heap : heap number := snd the_global_state.

Definition make_block (s : stmt number) : stmt number := Block s.

Definition eval_toplevel (fuel : nat) (s : stmt number)
    : res (value number * heap number) :=
  let program_block := make_block s in
  perform (value, h) <~
    evaluate fuel program_block the_global_environment the_global_heap ;;
  if is_return_value value
  then Err ReturnNotAllowed
  else Ok (value, h).

(** ** Vocabulary of the specification *)

(** The slot that a scan of the frame reaches for [name]: the one at the
    first position where [name] stands in the names of the frame. *)
Definition slot_of (name : string) (fr : frame number) (v : value number)
    : Prop :=
  ∃ i flag,
    frame_names fr !! i = Some name ∧
    (∀ j, j < i → frame_names fr !! j ≠ Some name) ∧
    frame_values fr !! i = Some (v, flag).

(** Frames as [extend_environment] builds them: one slot per name. *)
Definition well_formed_frame (fr : frame number) : Prop :=
  length (frame_names fr) = length (frame_values fr).

(** The constant declarations among the direct statements of a body:
    those reached through sequences only, never through a block or a
    function definition.  Written without any check for duplicates. *)
Fixpoint direct_declarations (s : stmt number) : list string :=
  match s with
  | Sequence stmts => flat_map direct_declarations stmts
  | ConstantDeclaration name _ => [name]
  | _ => []
  end.

(** [x] stands at two different positions of [l]. *)
Definition occurs_twice (x : string) (l : list string) : Prop :=
  ∃ l1 l2 l3, l = l1 ++ x :: l2 ++ x :: l3.

(** The value of a sequence as the specification words it: statements run
    from left to right, the value is that of the last one, and the first
    return value ends the sequence.  [run1] runs one statement. *)
Section SequenceSpec.
Variable run1 :
  exe number → environment → heap number →
  res (value number * heap number).

Fixpoint sequence_spec (funs : list (exe number)) (env : environment)
    (h : heap number) : res (value number * heap number) :=
  match funs with
  | [] => Ok (VUndefined, h)
  | f :: rest =>
      match rest with
      | [] => run1 f env h
      | _ :: _ =>
          perform (v, h1) <~ run1 f env h ;;
          if is_return_value v
          then Ok (v, h1)
          else sequence_spec rest env h1
      end
  end.

(** Every statement of [funs] ran, one after the other from the store
    [h] to the store [h'], and none of them gave a return value. *)
Inductive runs_through (env : environment)
    : list (exe number) → heap number → heap number → Prop :=
| runs_through_nil h : runs_through env [] h h
| runs_through_cons f funs h v h1 h' :
    run1 f env h = Ok (v, h1) →
    is_return_value v = false →
    runs_through env funs h1 h' →
    runs_through env (f :: funs) h h'.
End SequenceSpec.

(** What becomes of the result of a function body in
    [execute_application]. *)
Definition call_result (r : res (value number * heap number))
    : res (value number * heap number) :=
  match r with
  | Ok (VReturn content, h) => Ok (content, h)
  | Ok (_, h) => Ok (VUndefined, h)
  | Err e => Err e
  | OutOfFuel => OutOfFuel
  end.

(** The grammar in the header of the source file separates expressions
    from statements: the right-hand side of a declaration, the three parts
    of a conditional, the expression of a return statement, and the
    operator and operands of an application are expressions. *)
Definition is_expression_node (s : stmt number) : bool :=
  match s with
  | Literal _ | Name _ | ConditionalExpression _ _ _
  | FunctionDefinition _ _ | Application _ _ => true
  | _ => false
  end.

Fixpoint conforms (s : stmt number) : bool :=
  match s with
  | Literal _ | Name _ => true
  | ConstantDeclaration _ value => is_expression_node value && conforms value
  | ConditionalExpression pred consequent alt =>
      is_expression_node pred && conforms pred &&
      is_expression_node consequent && conforms consequent &&
      is_expression_node alt && conforms alt
  | FunctionDefinition _ body => conforms body
  | Sequence stmts => forallb conforms stmts
  | Block body => conforms body
  | ReturnStatement expression =>
      is_expression_node expression && conforms expression
  | Application operator operands =>
      is_expression_node operator && conforms operator &&
      forallb (λ o, is_expression_node o && conforms o) operands
  | OtherNode => false
  end.

(** The same separation on execution functions. *)
Definition is_expression (x : exe number) : bool :=
  match x with
  | XSelf _ | XName _ | XCond _ _ _ | XFunDef _ _ _ | XApp _ _ => true
  | _ => false
  end.

Fixpoint grammatical (x : exe number) : bool :=
  match x with
  | XSelf _ | XName _ | XUndefined => true
  | XConst _ vfun => is_expression vfun && grammatical vfun
  | XCond pfun cfun afun =>
      is_expression pfun && grammatical pfun &&
      is_expression cfun && grammatical cfun &&
      is_expression afun && grammatical afun
  | XFunDef _ _ body_fun => grammatical body_fun
  | XSeq fun1 fun2 => grammatical fun1 && grammatical fun2
  | XBlock _ body_func => grammatical body_func
  | XReturn retval_func => is_expression retval_func && grammatical retval_func
  | XApp function_func arg_funcs =>
      is_expression function_func && grammatical function_func &&
      forallb (λ a, is_expression a && grammatical a) arg_funcs
  end.

(** A value that an expression may have: not a return value, and a
    compound function only with a body that follows the grammar. *)
Definition plain (v : value number) : bool :=
  match v with
  | VReturn _ => false
  | VCompound _ _ body _ => grammatical body
  | _ => true
  end.

(** A value that a statement may have: plain, or one return value around
    a plain value. *)
Definition unnested (v : value number) : bool :=
  match v with
  | VReturn content => plain content
  | _ => plain v
  end.

Definition plain_frame (fr : frame number) : bool :=
  forallb (λ slot, plain (fst slot)) (frame_values fr).

Definition plain_heap (h : heap number) : bool :=
  forallb plain_frame h.

(** The hosts considered for the values of calls: a primitive function
    applied to plain values returns a plain value. *)
Definition host_plain : Prop :=
  ∀ impl args v,
    Forall (λ a, plain a) args →
    apply_in_underlying_javascript impl args = Ok v →
    plain v.

(** Programs that [analyze] accepts: every node has a tag that [analyze]
    knows, and in every block and every function body the direct
    declarations are pairwise different. *)
Fixpoint analyzable (s : stmt number) : bool :=
  match s with
  | Literal _ | Name _ => true
  | ConstantDeclaration _ value => analyzable value
  | ConditionalExpression pred consequent alt =>
      analyzable pred && analyzable consequent && analyzable alt
  | FunctionDefinition _ body =>
      bool_decide (NoDup (direct_declarations body)) && analyzable body
  | Sequence stmts => forallb analyzable stmts
  | Block body =>
      bool_decide (NoDup (direct_declarations body)) && analyzable body
  | ReturnStatement expression => analyzable expression
  | Application operator operands =>
      analyzable operator && forallb analyzable operands
  | OtherNode => false
  end.

(** What a run in the environment [env] may do to the store [h]: allocate
    frames, and write into the slots of the innermost frame of [env].  The
    other frames stay as they are, every frame keeps its names and the
    number of its slots, and frames keep one slot per name. *)
Definition frames_kept (env : environment) (h h' : heap number) : Prop :=
  length h ≤ length h' ∧
  (∀ l, l < length h → head env ≠ Some l → h' !! l = h !! l) ∧
  (∀ l fr, h !! l = Some fr →
           ∃ fr', h' !! l = Some fr' ∧
                  frame_names fr' = frame_names fr ∧
                  length (frame_values fr') = length (frame_values fr)) ∧
  (Forall well_formed_frame h → Forall well_formed_frame h').

(** An execution function that does not itself give a value to [name]:
    it has no constant declaration of [name] outside its nested blocks.
    (A nested block, like the body of a called function, writes to a frame
    of its own.) *)
Fixpoint no_declaration (name : string) (x : exe number) : bool :=
  match x with
  | XSelf _ | XName _ | XUndefined => true
  | XConst n vfun => bool_decide (n ≠ name) && no_declaration name vfun
  | XCond pfun cfun afun =>
      no_declaration name pfun && no_declaration name cfun &&
      no_declaration name afun
  | XFunDef _ _ _ => true
  | XSeq fun1 fun2 => no_declaration name fun1 && no_declaration name fun2
  | XBlock _ _ => true
  | XReturn retval_func => no_declaration name retval_func
  | XApp function_func arg_funcs =>
      no_declaration name function_func &&
      forallb (no_declaration name) arg_funcs
  end.

(** The frame at [l] has one slot per name and does not have [name]. *)
Definition lacks (name : string) (h : heap number) (l : nat) : Prop :=
  ∃ fr, h !! l = Some fr ∧ well_formed_frame fr ∧ name ∉ frame_names fr.

(** [name] is declared but not initialised in [env]: the innermost frame
    of [env] that has [name] holds the sentinel in the slot of [name]. *)
Definition uninitialised (name : string) (env : environment)
    (h : heap number) : Prop :=
  ∃ inner l outer fr,
    env = inner ++ l :: outer ∧
    Forall (lacks name h) inner ∧
    h !! l = Some fr ∧
    slot_of name fr VNoValueYet.

(** The run of [x] in [env] on the store [h] comes to a read of [name]:
    what runs before the read gives values, without return value where a
    sequence goes on, and does not itself give a value to [name]. *)
Inductive reaches_read (name : string) (fuel : nat)
    : exe number → environment → heap number → Prop :=
| reaches_name env h :
    reaches_read name fuel (XName name) env h
| reaches_declaration n vfun env h :
    reaches_read name fuel vfun env h →
    reaches_read name fuel (XConst n vfun) env h
| reaches_predicate pfun cfun afun env h :
    reaches_read name fuel pfun env h →
    reaches_read name fuel (XCond pfun cfun afun) env h
| reaches_branch pfun cfun afun env h p h1 :
    no_declaration name pfun →
    run fuel pfun env h = Ok (p, h1) →
    reaches_read name fuel (if is_true p then cfun else afun) env h1 →
    reaches_read name fuel (XCond pfun cfun afun) env h
| reaches_first fun1 fun2 env h :
    reaches_read name fuel fun1 env h →
    reaches_read name fuel (XSeq fun1 fun2) env h
| reaches_second fun1 fun2 env h fun1_val h1 :
    no_declaration name fun1 →
    run fuel fun1 env h = Ok (fun1_val, h1) →
    is_return_value fun1_val = false →
    reaches_read name fuel fun2 env h1 →
    reaches_read name fuel (XSeq fun1 fun2) env h
| reaches_block locals body_func env h :
    reaches_read name fuel body_func (length h :: env)
      (h ++ [make_frame locals (map (λ _, (VNoValueYet, false)) locals)]) →
    reaches_read name fuel (XBlock locals body_func) env h
| reaches_return retval_func env h :
    reaches_read name fuel retval_func env h →
    reaches_read name fuel (XReturn retval_func) env h
| reaches_operator function_func arg_funcs env h :
    reaches_read name fuel function_func env h →
    reaches_read name fuel (XApp function_func arg_funcs) env h
| reaches_operand function_func before arg_func after env h f h0 args h1 :
    no_declaration name function_func →
    run fuel function_func env h = Ok (f, h0) →
    Forall (λ a, no_declaration name a) before →
    map_exec (λ a h', run fuel a env h') before h0 = Ok (args, h1) →
    reaches_read name fuel arg_func env h1 →
    reaches_read name fuel
      (XApp function_func (before ++ arg_func :: after)) env h.

End Evaluator.

(** ** A host for the examples

    Integers for numbers, and only as much of the primitive functions as
    the examples use. *)

Definition integer_host (impl : primitive) (args : list (value Z))
    : outcome Z (value Z) :=
  match impl, args with
  | prim_display, [v] => Ok v
  | prim_plus, [VNumber x; VNumber y] => Ok (VNumber (x + y)%Z)
  | prim_minus, [VNumber x; VNumber y] => Ok (VNumber (x - y)%Z)
  | prim_times, [VNumber x; VNumber y] => Ok (VNumber (x * y)%Z)
  | prim_eq, [VNumber x; VNumber y] => Ok (VBoolean (bool_decide (x = y)))
  | prim_lt, [VNumber x; VNumber y] => Ok (VBoolean (bool_decide (x < y)%Z))
  | prim_not, [VBoolean b] => Ok (VBoolean (negb b))
  | _, _ => Err (HostError "unsupported")
  end.

Definition integer_PI : Z := 3%Z.

Module Examples.

Definition num (z : Z) : stmt Z := Literal (LNumber z).

Definition call (f : string) (args : list (stmt Z)) : stmt Z :=
  Application (Name f) args.

(** [const x = 1 + 2; x;] *)
Definition sum_program : stmt Z :=
  Sequence [ ConstantDeclaration "x" (call "+" [num 1; num 2]);
             Name "x" ].

(** [function f(n) { return n === 0 ? 1 : n * f(n - 1); } f(5);] *)
Definition factorial_program : stmt Z :=
  Sequence
    [ ConstantDeclaration "f"
        (FunctionDefinition ["n"]
           (ReturnStatement
              (ConditionalExpression
                 (call "===" [Name "n"; num 0])
                 (num 1)
                 (call "*" [Name "n";
                            call "f" [call "-" [Name "n"; num 1]]]))));
      call "f" [num 5] ].

(** [const x = 1; const make = () => () => x; const g = make();
     { const x = 2; g(); }] *)
Definition closure_program : stmt Z :=
  Sequence
    [ ConstantDeclaration "x" (num 1);
      ConstantDeclaration "make"
        (FunctionDefinition []
           (ReturnStatement
              (FunctionDefinition [] (ReturnStatement (Name "x")))));
      ConstantDeclaration "g" (call "make" []);
      Block (Sequence [ ConstantDeclaration "x" (num 2);
                        call "g" [] ]) ].

(** [function g() { return a; const a = 1; } g();] *)
Definition forward_reference_program : stmt Z :=
  Sequence
    [ ConstantDeclaration "g"
        (FunctionDefinition []
           (Sequence [ ReturnStatement (Name "a");
                       ConstantDeclaration "a" (num 1) ]));
      call "g" [] ].

(** [function h(a) { return a; } h(1, 2);] and [h();] *)
Definition arity_program (args : list (stmt Z)) : stmt Z :=
  Sequence
    [ ConstantDeclaration "h"
        (FunctionDefinition ["a"] (ReturnStatement (Name "a")));
      call "h" args ].

(** [true ? 1 : 2;] and [0 ? 1 : 2;] *)
Definition conditional_program (pred : stmt Z) : stmt Z :=
  ConditionalExpression pred (num 1) (num 2).

(** [const x = 1; { x; const x = 2; }] *)
Definition shadow_program : stmt Z :=
  Sequence
    [ ConstantDeclaration "x" (num 1);
      Block (Sequence [ Name "x"; ConstantDeclaration "x" (num 2) ]) ].

(** [{ const x = 1; display(x); const x = 2; }] *)
Definition duplicate_body : stmt Z :=
  Sequence [ ConstantDeclaration "x" (num 1);
             call "display" [Name "x"];
             ConstantDeclaration "x" (num 2) ].

(** [function k(x) { const x = 1; return x; } k(5);] with the body given
    as the sequence of its statements. *)
Definition collision_body : stmt Z :=
  Sequence [ ConstantDeclaration "x" (num 1);
             ReturnStatement (Name "x") ].

Definition collision_program : stmt Z :=
  Sequence
    [ ConstantDeclaration "k" (FunctionDefinition ["x"] collision_body);
      call "k" [num 5] ].

(** [1; return 2; 3;] *)
Definition return_program : stmt Z :=
  Sequence [ num 1; ReturnStatement (num 2); num 3 ].

(** The value of a top-level evaluation, without the store. *)
Definition value_of (r : outcome Z (value Z * heap Z))
    : outcome Z (value Z) :=
  match r with
  | Ok (v, _) => Ok v
  | Err e => Err e
  | OutOfFuel => OutOfFuel
  end.

Definition toplevel (fuel : nat) (s : stmt Z) : outcome Z (value Z) :=
  value_of (eval_toplevel integer_PI integer_host fuel s).

End Examples.

(** * Properties *)

Section Properties.

Context {number : Type}.
Variable math_PI : number.
Variable host : primitive → list (value number) → outcome number (value number).

Local Abbreviation res A := (outcome number A).
Local Abbreviation apply_compound := (execute_application host).

(** ** Induction over syntax trees and execution functions *)

Lemma stmt_nested_ind (P : stmt number → Prop) :
  (∀ l, P (Literal l)) →
  (∀ name, P (Name name)) →
  (∀ name value, P value → P (ConstantDeclaration name value)) →
  (∀ p c a, P p → P c → P a → P (ConditionalExpression p c a)) →
  (∀ vars body, P body → P (FunctionDefinition vars body)) →
  (∀ stmts, Forall P stmts → P (Sequence stmts)) →
  (∀ body, P body → P (Block body)) →
  (∀ e, P e → P (ReturnStatement e)) →
  (∀ f ops, P f → Forall P ops → P (Application f ops)) →
  P OtherNode →
  ∀ s, P s.
Proof.
  intros HL HN HC HI HF HS HB HR HA HO.
  fix IH 1.
  intros [l|name|name value|p c a|vars body|stmts|body|e|f ops|].
  - apply HL.
  - apply HN.
  - apply HC, IH.
  - apply HI; apply IH.
  - apply HF, IH.
  - apply HS. induction stmts as [|s stmts IHs]; constructor; [apply IH|exact IHs].
  - apply HB, IH.
  - apply HR, IH.
  - apply HA; [apply IH|].
    induction ops as [|s ops IHs]; constructor; [apply IH|exact IHs].
  - apply HO.
Qed.

Lemma exe_nested_ind (P : exe number → Prop) :
  (∀ l, P (XSelf l)) →
  (∀ name, P (XName name)) →
  (∀ name vfun, P vfun → P (XConst name vfun)) →
  (∀ p c a, P p → P c → P a → P (XCond p c a)) →
  (∀ vars locals body, P body → P (XFunDef vars locals body)) →
  P XUndefined →
  (∀ f1 f2, P f1 → P f2 → P (XSeq f1 f2)) →
  (∀ locals body, P body → P (XBlock locals body)) →
  (∀ r, P r → P (XReturn r)) →
  (∀ f args, P f → Forall P args → P (XApp f args)) →
  ∀ x, P x.
Proof.
  intros HL HN HC HI HF HU HS HB HR HA.
  fix IH 1.
  intros [l|name|name vfun|p c a|vars locals body| |f1 f2|locals body|r|f args].
  - apply HL.
  - apply HN.
  - apply HC, IH.
  - apply HI; apply IH.
  - apply HF, IH.
  - apply HU.
  - apply HS; apply IH.
  - apply HB, IH.
  - apply HR, IH.
  - apply HA; [apply IH|].
    induction args as [|a args IHa]; constructor; [apply IH|exact IHa].
Qed.

(** ** Local names *)

Ltac reassociate :=
  repeat (rewrite <- app_assoc || rewrite <- app_comm_cons); reflexivity.

Lemma member_true x ys : member x ys = true ↔ x ∈ ys.
Proof. unfold member. apply bool_decide_eq_true. Qed.

Lemma member_false x ys : member x ys = false ↔ x ∉ ys.
Proof. unfold member. apply bool_decide_eq_false. Qed.

(** [insert_all] either prepends [xs], when no name of [xs] stands in
    [ys], or reports the first name of [xs] that does. *)
Lemma insert_all_cases (xs ys : list string) :
  (insert_all (number:=number) xs ys = Ok (xs ++ ys) ∧ ∀ x, x ∈ xs → x ∉ ys) ∨
  (∃ x, insert_all (number:=number) xs ys = Err (MultipleDeclarations x) ∧
        x ∈ xs ∧ x ∈ ys).
Proof.
  induction xs as [|x xs IH]; simpl.
  - left. split; [reflexivity|]. intros x Hx. inversion Hx.
  - destruct (member x ys) eqn:Hm.
    + right. exists x. apply member_true in Hm.
      split; [reflexivity|]. split; [left|exact Hm].
    + apply member_false in Hm.
      destruct IH as [[-> Hdisj]|(y & -> & Hy1 & Hy2)].
      * left. split; [reflexivity|].
        intros z Hz. apply elem_of_cons in Hz as [->|Hz]; auto.
      * right. exists y. split; [reflexivity|]. split; [by right|exact Hy2].
Qed.

Lemma insert_all_disjoint (xs ys : list string) :
  (∀ x, x ∈ xs → x ∉ ys) → insert_all (number:=number) xs ys = Ok (xs ++ ys).
Proof.
  intros Hdisj.
  destruct (insert_all_cases xs ys) as [[H _]|(x & _ & H1 & H2)]; [exact H|].
  destruct (Hdisj x H1 H2).
Qed.

Lemma insert_all_collision (xs ys : list string) x :
  x ∈ xs → x ∈ ys →
  ∃ y, insert_all (number:=number) xs ys = Err (MultipleDeclarations y) ∧
       y ∈ xs ∧ y ∈ ys.
Proof.
  intros H1 H2.
  destruct (insert_all_cases xs ys) as [[_ H]|H]; [|exact H].
  destruct (H x H1 H2).
Qed.

Lemma occurs_twice_app_l x l k : occurs_twice x l → occurs_twice x (l ++ k).
Proof.
  intros (l1 & l2 & l3 & ->). exists l1, l2, (l3 ++ k).
  reassociate.
Qed.

Lemma occurs_twice_app_r x l k : occurs_twice x k → occurs_twice x (l ++ k).
Proof.
  intros (l1 & l2 & l3 & ->). exists (l ++ l1), l2, l3.
  reassociate.
Qed.

Lemma occurs_twice_app_both x l k : x ∈ l → x ∈ k → occurs_twice x (l ++ k).
Proof.
  intros (l1 & l2 & ->)%list_elem_of_split (k1 & k2 & ->)%list_elem_of_split.
  exists l1, (l2 ++ k1), k2. reassociate.
Qed.

Lemma occurs_twice_not_NoDup x l : occurs_twice x l → ¬ NoDup l.
Proof.
  intros (l1 & l2 & l3 & ->) Hnd.
  apply NoDup_app in Hnd as (_ & _ & Hnd).
  apply NoDup_cons in Hnd as [Hx _].
  apply Hx. apply elem_of_app. right. left.
Qed.

Lemma local_names_sequence_cons (s : stmt number) stmts :
  local_names (Sequence (s :: stmts)) =
  perform xs <~ local_names s ;;
  perform ys <~ local_names (Sequence stmts) ;;
  insert_all xs ys.
Proof. reflexivity. Qed.

(** [local_names] returns the direct declarations when they are pairwise
    different, and otherwise reports a name that is declared twice. *)
Lemma local_names_cases (s : stmt number) :
  (local_names s = Ok (direct_declarations s) ∧
   NoDup (direct_declarations s)) ∨
  (∃ x, local_names s = Err (MultipleDeclarations x) ∧
        occurs_twice x (direct_declarations s)).
Proof.
  induction s as [l|name|name value _|p c a _ _ _|vars body _|stmts IH
                 |body _|e _|f ops _ _|] using stmt_nested_ind;
    try (left; split; [reflexivity|apply NoDup_nil_2]).
  - left. split; [reflexivity|]. apply NoDup_singleton.
  - induction IH as [|s stmts Hs _ IHstmts].
    + left. split; [reflexivity|constructor].
    + rewrite local_names_sequence_cons.
      change (direct_declarations (Sequence (s :: stmts)))
        with (direct_declarations s ++ direct_declarations (Sequence stmts)).
      destruct Hs as [[-> Hnd1]|(x & -> & Hx)].
      * destruct IHstmts as [[-> Hnd2]|(x & -> & Hx)].
        -- destruct (insert_all_cases (direct_declarations s)
                       (direct_declarations (Sequence stmts)))
             as [[-> Hdisj]|(x & -> & Hx1 & Hx2)].
           ++ left. split; [reflexivity|]. apply NoDup_app. auto.
           ++ right. exists x. split; [reflexivity|].
              by apply occurs_twice_app_both.
        -- right. exists x. split; [reflexivity|].
           by apply occurs_twice_app_r.
      * right. exists x. split; [reflexivity|]. by apply occurs_twice_app_l.
Qed.

(** C7.  When two of the direct constant declarations of a body (those
    outside any nested block or function) have the same name, collecting
    the local names fails with a multiple-declarations error for a name
    that is declared twice.  The analysis of the block, and of a function
    definition with that body, fails with it, so evaluation stops before
    any execution function exists, whatever the fuel, environment and
    store. *)
Theorem duplicate_declaration_is_static (body : stmt number) :
  ¬ NoDup (direct_declarations body) →
  ∃ x, occurs_twice x (direct_declarations body) ∧
       local_names body = Err (MultipleDeclarations x) ∧
       analyze (Block body) = Err (MultipleDeclarations x) ∧
       (∀ vars,
          analyze (FunctionDefinition vars body) =
          Err (MultipleDeclarations x)) ∧
       (∀ fuel env h,
          evaluate host fuel (Block body) env h =
          Err (MultipleDeclarations x)) ∧
       (∀ fuel vars env h,
          evaluate host fuel (FunctionDefinition vars body) env h =
          Err (MultipleDeclarations x)).
Proof.
  intros Hdup.
  destruct (local_names_cases body) as [[_ Hnd]|(x & Hx & Htwice)];
    [destruct (Hdup Hnd)|].
  exists x. unfold evaluate. simpl. rewrite Hx. repeat split; done.
Qed.

(** The converse: pairwise different direct declarations are collected
    in the order of the program. *)
Lemma local_names_NoDup (body : stmt number) :
  NoDup (direct_declarations body) →
  local_names body = Ok (direct_declarations body).
Proof.
  intros Hnd.
  destruct (local_names_cases body) as [[H _]|(x & _ & Htwice)]; [exact H|].
  destruct (occurs_twice_not_NoDup _ _ Htwice Hnd).
Qed.

(** C9.  A parameter that is also a direct local name of the body is not
    noticed by the analysis of the function definition, which succeeds;
    every application of the resulting function value then fails with a
    multiple-declarations error, for every argument list, store and
    fuel. *)
Theorem parameter_local_collision vars (body : stmt number) locals body_fun x :
  local_names body = Ok locals →
  analyze body = Ok body_fun →
  x ∈ vars → x ∈ locals →
  analyze (FunctionDefinition vars body) = Ok (XFunDef vars locals body_fun) ∧
  (∀ fuel env h,
     run host fuel (XFunDef vars locals body_fun) env h =
     Ok (VCompound vars locals body_fun env, h)) ∧
  ∃ y, y ∈ vars ∧ y ∈ locals ∧
       ∀ fuel env args h,
         apply_compound fuel (VCompound vars locals body_fun env) args h =
         Err (MultipleDeclarations y).
Proof.
  intros Hlocals Hbody Hx1 Hx2. simpl. rewrite Hlocals, Hbody.
  split; [reflexivity|]. split; [reflexivity|].
  destruct (insert_all_collision vars locals x Hx1 Hx2) as (y & Hy & Hy1 & Hy2).
  exists y. split; [exact Hy1|]. split; [exact Hy2|].
  intros fuel env args h. destruct fuel; simpl; by rewrite Hy.
Qed.


(** ** Name lookup *)

Lemma lookup_scan_found name (enclosing : res (value number)) v flag :
  ∀ i names vals,
    names !! i = Some name →
    (∀ j, j < i → names !! j ≠ Some name) →
    vals !! i = Some (v, flag) →
    lookup_scan name enclosing names vals = Ok v.
Proof.
  induction i as [|i IH]; intros [|n names] [|slot vals] Hn Hfirst Hv;
    simpl in *; try discriminate.
  - injection Hn as ->. injection Hv as ->.
    by rewrite decide_True.
  - rewrite decide_False.
    + apply IH; [exact Hn| |exact Hv].
      intros j Hj. apply (Hfirst (S j)). lia.
    + intros ->. by apply (Hfirst 0); [lia|].
Qed.

Lemma lookup_scan_absent name (enclosing : res (value number)) :
  ∀ names vals,
    name ∉ names → length names ≤ length vals →
    lookup_scan name enclosing names vals = enclosing.
Proof.
  induction names as [|n names IH]; intros [|slot vals] Hnot Hlen;
    simpl in *; try reflexivity; try lia.
  apply not_elem_of_cons in Hnot as [Hne Hnot].
  rewrite decide_False by exact Hne.
  apply IH; [exact Hnot|lia].
Qed.

(** What [env_loop] returns is never the sentinel: the check that follows
    the scan of a frame also covers a value found further out. *)
Lemma env_loop_not_sentinel name (h : heap number) env v :
  env_loop name h env = Ok v → is_no_value_yet v = false.
Proof.
  destruct env as [|l env]; simpl; [discriminate|].
  destruct (h !! l) as [fr|]; [|discriminate].
  destruct (lookup_scan _ _ _ _) as [w| |]; try discriminate.
  destruct (is_no_value_yet w) eqn:Hw; [discriminate|].
  by intros [= <-].
Qed.

Lemma env_loop_enclosing name (h : heap number) l env fr :
  h !! l = Some fr →
  name ∉ frame_names fr → well_formed_frame fr →
  env_loop name h (l :: env) = env_loop name h env.
Proof.
  intros Hl Hnot Hwf. simpl. rewrite Hl.
  rewrite lookup_scan_absent; [|exact Hnot|by rewrite Hwf].
  destruct (env_loop name h env) as [v| |] eqn:Hv; try reflexivity.
  by rewrite (env_loop_not_sentinel _ _ _ _ Hv).
Qed.

Lemma env_loop_innermost name (h : heap number) l env fr v :
  h !! l = Some fr →
  slot_of name fr v →
  env_loop name h (l :: env) =
  if is_no_value_yet v then Err (NameUsedBeforeDeclaration name) else Ok v.
Proof.
  intros Hl (i & flag & Hn & Hfirst & Hv). simpl. rewrite Hl.
  by rewrite (lookup_scan_found name _ v flag i).
Qed.

(** C4.  Lookup in the empty environment is the unbound-name error.  In
    an environment whose innermost frame is [fr]: when the scan of [fr]
    reaches a slot for the name, the result is the use-before-declaration
    error if the slot holds the sentinel and the value of the slot
    otherwise; when [fr], with one slot per name, does not have the name,
    the result is that of the lookup in the enclosing environment. *)
Theorem lookup_name_value_cases name :
  (∀ h : heap number,
     lookup_name_value name the_empty_environment h =
     Err (UnboundName name)) ∧
  (∀ (h : heap number) l env fr,
     h !! l = Some fr →
     (∀ v, slot_of name fr v →
           (v = VNoValueYet →
            lookup_name_value name (l :: env) h =
            Err (NameUsedBeforeDeclaration name)) ∧
           (v ≠ VNoValueYet →
            lookup_name_value name (l :: env) h = Ok v)) ∧
     (well_formed_frame fr → name ∉ frame_names fr →
      lookup_name_value name (l :: env) h = lookup_name_value name env h)).
Proof.
  split; [reflexivity|].
  intros h l env fr Hl. unfold lookup_name_value. split.
  - intros v Hslot. rewrite (env_loop_innermost _ _ _ _ _ _ Hl Hslot).
    split; [by intros ->|].
    intros Hv. by destruct v.
  - intros Hwf Hnot. by apply env_loop_enclosing with fr.
Qed.

(** A frame that has the name always has a slot for it. *)
Lemma slot_of_exists name (fr : frame number) :
  well_formed_frame fr → name ∈ frame_names fr → ∃ v, slot_of name fr v.
Proof.
  destruct fr as [names vals]. unfold well_formed_frame, slot_of. simpl.
  revert vals. induction names as [|n names IH]; intros vals Hlen Hin.
  - inversion Hin.
  - destruct vals as [|[v flag] vals]; [discriminate|].
    destruct (decide (name = n)) as [->|Hne].
    + exists v, 0, flag. split; [done|]. split; [|done]. intros j Hj. lia.
    + apply elem_of_cons in Hin as [Heq|Hin]; [done|].
      destruct (IH vals) as (w & i & flag' & Hn & Hfirst & Hv);
        [by injection Hlen|exact Hin|].
      exists w, (S i), flag'. split; [exact Hn|]. split; [|exact Hv].
      intros [|j] Hj; simpl; [congruence|]. apply Hfirst. lia.
Qed.

(** C10.  The innermost frame that has the name decides the lookup: if
    the frames in front of it do not have the name and its slot for the
    name holds the sentinel, the lookup is the use-before-declaration
    error whatever the enclosing environment [outer] binds; with any other
    slot value the lookup returns that value. *)
Theorem innermost_declaration_shadows name (h : heap number) inner l outer fr v :
  Forall (λ l', ∃ fr', h !! l' = Some fr' ∧ well_formed_frame fr' ∧
                       name ∉ frame_names fr') inner →
  h !! l = Some fr →
  slot_of name fr v →
  (v = VNoValueYet →
   lookup_name_value name (inner ++ l :: outer) h =
   Err (NameUsedBeforeDeclaration name)) ∧
  (v ≠ VNoValueYet →
   lookup_name_value name (inner ++ l :: outer) h = Ok v).
Proof.
  intros Hinner Hl Hslot. unfold lookup_name_value.
  assert (Heq : env_loop name h (inner ++ l :: outer) =
                env_loop name h (l :: outer)).
  { induction Hinner as [|l' inner (fr' & Hl' & Hwf & Hnot) _ IH];
      [reflexivity|].
    rewrite <- app_comm_cons.
    by rewrite (env_loop_enclosing _ _ _ _ _ Hl' Hnot Hwf). }
  rewrite Heq, (env_loop_innermost _ _ _ _ _ _ Hl Hslot).
  split; [by intros ->|]. intros Hv. by destruct v.
Qed.

(** ** Conditionals *)

(** C2.  The execution function of a conditional expression runs the
    predicate, then the consequent when the value of the predicate is the
    boolean [true] and the alternative for every other value; the result
    is that of the branch, so a predicate that is not a boolean is no
    error. *)
Theorem conditional_exactly_true (pred consequent alt : stmt number)
    pfun cfun afun :
  analyze pred = Ok pfun →
  analyze consequent = Ok cfun →
  analyze alt = Ok afun →
  analyze (ConditionalExpression pred consequent alt) =
  Ok (XCond pfun cfun afun) ∧
  ∀ fuel env h p h1,
    run host fuel pfun env h = Ok (p, h1) →
    (p = VBoolean true →
     run host fuel (XCond pfun cfun afun) env h = run host fuel cfun env h1) ∧
    (p ≠ VBoolean true →
     run host fuel (XCond pfun cfun afun) env h = run host fuel afun env h1).
Proof.
  intros Hp Hc Ha. simpl. rewrite Hp, Hc, Ha. split; [reflexivity|].
  intros fuel env h p h1 Hrun. unfold run in *. simpl. rewrite Hrun.
  split.
  - by intros ->.
  - intros Hne. destruct p as [| |[]| | | | |]; try reflexivity.
    by destruct Hne.
Qed.

(** ** Sequences *)

Section Sequences.
Variable execute :
  value number → list (value number) → heap number →
  res (value number * heap number).

Lemma sequence_spec_cons2 f g rest env h :
  sequence_spec (exec execute) (f :: g :: rest) env h =
  perform (v, h1) <~ exec execute f env h ;;
  if is_return_value v then Ok (v, h1)
  else sequence_spec (exec execute) (g :: rest) env h1.
Proof. reflexivity. Qed.

(** The left-nested chain that [loop] builds runs the statements like
    the specification does. *)
Lemma exec_loop rest : ∀ first env h,
  exec execute (loop first rest) env h =
  sequence_spec (exec execute) (first :: rest) env h.
Proof.
  induction rest as [|f rest IH]; intros first env h; [reflexivity|].
  simpl loop. rewrite IH, sequence_spec_cons2.
  destruct rest as [|g rest].
  - reflexivity.
  - rewrite !sequence_spec_cons2. unfold sequentially. simpl exec.
    destruct (exec execute first env h) as [[v h1]| |]; try reflexivity.
    destruct (is_return_value v) eqn:Hv; [|reflexivity].
    by rewrite Hv.
Qed.

Lemma sequence_spec_return pre : ∀ f post env h h1 v h2,
  runs_through (exec execute) env pre h h1 →
  exec execute f env h1 = Ok (v, h2) →
  is_return_value v = true →
  sequence_spec (exec execute) (pre ++ f :: post) env h = Ok (v, h2).
Proof.
  induction pre as [|g pre IH]; intros f post env h h1 v h2 Hpre Hf Hv.
  - inversion Hpre; subst. simpl.
    rewrite Hf, Hv. by destruct post.
  - inversion Hpre as [|? ? ? w h' ? Hg Hw Hrest]; subst.
    destruct pre as [|g' pre].
    + inversion Hrest; subst. simpl app.
      rewrite sequence_spec_cons2, Hg, Hw.
      by apply (IH f post env h1 h1 v h2).
    + rewrite <- !app_comm_cons, sequence_spec_cons2, Hg, Hw.
      rewrite app_comm_cons. by apply (IH f post env h' h1 v h2).
Qed.

Lemma sequence_spec_last pre : ∀ f env h h1,
  runs_through (exec execute) env pre h h1 →
  sequence_spec (exec execute) (pre ++ [f]) env h = exec execute f env h1.
Proof.
  induction pre as [|g pre IH]; intros f env h h1 Hpre.
  - by inversion Hpre; subst.
  - inversion Hpre as [|? ? ? w h' ? Hg Hw Hrest]; subst.
    destruct pre as [|g' pre].
    + inversion Hrest; subst. simpl app.
      by rewrite sequence_spec_cons2, Hg, Hw.
    + rewrite <- !app_comm_cons, sequence_spec_cons2, Hg, Hw.
      rewrite app_comm_cons. by apply IH.
Qed.
End Sequences.

(** C5.  The execution function of a sequence is the one the
    specification describes ([sequence_spec]): the statements run from
    left to right on the store left by the one before.  If the statements
    [pre] run without a return value and the next one, [f], gives a return
    value, that value is the result together with the store as [f] left
    it, so no later statement has run; and if all statements before the
    last one run without a return value, the result is that of the last
    statement. *)
Theorem sequence_runs_in_order (stmts : list (stmt number)) funs :
  map_res analyze stmts = Ok funs →
  analyze (Sequence stmts) = Ok (analyze_sequence funs) ∧
  (∀ fuel env h,
     run host fuel (analyze_sequence funs) env h =
     sequence_spec (run host fuel) funs env h) ∧
  (∀ fuel env pre f post h h1 v h2,
     funs = pre ++ f :: post →
     runs_through (run host fuel) env pre h h1 →
     run host fuel f env h1 = Ok (v, h2) →
     is_return_value v = true →
     run host fuel (analyze_sequence funs) env h = Ok (v, h2)) ∧
  (∀ fuel env pre f h h1,
     funs = pre ++ [f] →
     runs_through (run host fuel) env pre h h1 →
     run host fuel (analyze_sequence funs) env h = run host fuel f env h1).
Proof.
  intros Hfuns.
  assert (Hspec : ∀ fuel env h,
            run host fuel (analyze_sequence funs) env h =
            sequence_spec (run host fuel) funs env h).
  { intros fuel env h. destruct funs as [|f rest]; [reflexivity|].
    apply exec_loop. }
  split; [|split; [exact Hspec|split]].
  - simpl. by rewrite Hfuns.
  - intros fuel env pre f post h h1 v h2 -> Hpre Hf Hv.
    rewrite Hspec. by apply sequence_spec_return with h1.
  - intros fuel env pre f h h1 -> Hpre.
    rewrite Hspec. by apply sequence_spec_last.
Qed.

(** ** The top level *)

Lemma extend_environment_block locals env (h : heap number) :
  extend_environment locals (map (λ _, no_value_yet) locals) env h =
  Ok (length h :: env,
      h ++ [make_frame locals (map (λ _, (VNoValueYet, false)) locals)]).
Proof.
  unfold extend_environment.
  rewrite decide_True by (by rewrite length_map).
  by rewrite map_map.
Qed.

Lemma setup_environment_ok :
  ∃ fr, setup_environment math_PI = Ok ([0], [fr]) ∧
        frame_names fr = map fst primitive_functions ++
                         map fst (primitive_constants math_PI).
Proof. eexists. split; reflexivity. Qed.

(** C6.  [eval_toplevel] evaluates the program as the body of a block in
    the global environment: the program runs in an environment whose
    innermost frame is new, holds the local names of the program with the
    sentinel, and is followed by the one frame of the global environment.
    A return value as the result is turned into the error that return is
    not allowed; every other value is returned as it is, with the store. *)
Theorem eval_toplevel_cases fuel (s : stmt number) :
  (the_global_environment math_PI = [0] ∧
   length (the_global_heap math_PI) = 1) ∧
  (∀ locals x,
     local_names s = Ok locals → analyze s = Ok x →
     evaluate host fuel (make_block s)
       (the_global_environment math_PI) (the_global_heap math_PI) =
     run host fuel x (1 :: the_global_environment math_PI)
       (the_global_heap math_PI ++
        [make_frame locals (map (λ _, (VNoValueYet, false)) locals)])) ∧
  (∀ v h,
     evaluate host fuel (make_block s)
       (the_global_environment math_PI) (the_global_heap math_PI) =
     Ok (v, h) →
     (is_return_value v = true →
      eval_toplevel math_PI host fuel s = Err ReturnNotAllowed) ∧
     (is_return_value v = false →
      eval_toplevel math_PI host fuel s = Ok (v, h))) ∧
  (∀ e,
     evaluate host fuel (make_block s)
       (the_global_environment math_PI) (the_global_heap math_PI) = Err e →
     eval_toplevel math_PI host fuel s = Err e).
Proof.
  split; [split; reflexivity|]. split; [|split].
  - intros locals x Hlocals Hx. unfold evaluate, make_block. simpl analyze.
    rewrite Hlocals, Hx. unfold run. simpl exec.
    by rewrite extend_environment_block.
  - intros v h Hev. unfold eval_toplevel. rewrite Hev.
    split; by intros ->.
  - intros e Hev. unfold eval_toplevel. by rewrite Hev.
Qed.

(** ** Function application *)

Lemma insert_all_Ok (xs ys names : list string) :
  insert_all (number:=number) xs ys = Ok names → names = xs ++ ys.
Proof.
  intros H.
  destruct (insert_all_cases xs ys) as [[H' _]|(x & H' & _)];
    rewrite H' in H; [by injection H|discriminate].
Qed.

(** A call with as many arguments as parameters runs the body in the
    environment of the function value, extended by the new frame. *)
Lemma execute_application_compound fuel parameters locals body env args
    (h : heap number) names :
  insert_all (number:=number) parameters locals = Ok names →
  length args = length parameters →
  apply_compound (S fuel) (VCompound parameters locals body env) args h =
  call_result
    (run host fuel body (length h :: env)
       (h ++ [make_frame names
                (map (λ x, (x, false))
                   (args ++ map (λ _, no_value_yet) locals))])).
Proof.
  intros Hins Hlen. simpl. rewrite Hins.
  apply insert_all_Ok in Hins as ->.
  unfold extend_environment.
  rewrite decide_True by (rewrite !length_app, length_map; lia).
  unfold run.
  destruct (exec _ body _ _) as [[[] h2]| |]; reflexivity.
Qed.

(** Allocating a frame does not change the lookup in an environment made
    of frames that were there before. *)
Lemma env_loop_alloc name (h : heap number) fr env :
  Forall (λ l, l < length h) env →
  env_loop name (h ++ [fr]) env = env_loop name h env.
Proof.
  induction 1 as [|l env Hl _ IH]; [reflexivity|].
  cbn [env_loop]. rewrite IH.
  by rewrite lookup_app_l by exact Hl.
Qed.

(** C1.  A function definition stores the environment it is executed in
    in the function value.  An application, executed in any call-site
    environment [call_env], runs the body of the function value in the new
    frame (parameters bound to the arguments, locals to the sentinel)
    followed by the stored environment [env]; [call_env] is used for the
    operator and the operands only.  A name that the new frame does not
    have is therefore looked up in the environment of the definition. *)
Theorem closure_lexical_scope :
  (∀ fuel vars locals body env (h : heap number),
     run host fuel (XFunDef vars locals body) env h =
     Ok (VCompound vars locals body env, h)) ∧
  (∀ fuel function_func arg_funcs call_env (h : heap number)
     parameters locals body env h1 args h2 names,
     run host (S fuel) function_func call_env h =
     Ok (VCompound parameters locals body env, h1) →
     map_exec (λ a h', run host (S fuel) a call_env h') arg_funcs h1 =
     Ok (args, h2) →
     insert_all (number:=number) parameters locals = Ok names →
     length args = length parameters →
     let fr := make_frame names
                 (map (λ x, (x, false))
                    (args ++ map (λ _, no_value_yet) locals)) in
     run host (S fuel) (XApp function_func arg_funcs) call_env h =
     call_result (run host fuel body (length h2 :: env) (h2 ++ [fr])) ∧
     ∀ name,
       name ∉ names →
       Forall (λ l, l < length h2) env →
       lookup_name_value name (length h2 :: env) (h2 ++ [fr]) =
       lookup_name_value name env h2).
Proof.
  split; [reflexivity|].
  intros fuel function_func arg_funcs call_env h parameters locals body env
    h1 args h2 names Hf Hargs Hins Hlen fr.
  split.
  - unfold run in Hf, Hargs |- *. cbn [exec].
    rewrite Hf, Hargs.
    by apply execute_application_compound.
  - intros name Hnot Henv. unfold lookup_name_value.
    rewrite (env_loop_enclosing name _ (length h2) env fr).
    + by apply env_loop_alloc.
    + by rewrite lookup_app_r, Nat.sub_diag.
    + exact Hnot.
    + unfold well_formed_frame, fr. simpl.
      apply insert_all_Ok in Hins as ->.
      rewrite length_map, !length_app, length_map. lia.
Qed.

(** ** Frames keep one slot per name *)

Lemma extend_environment_well_formed names (vals : list (value number))
    env h env' h' :
  Forall well_formed_frame h →
  extend_environment names vals env h = Ok (env', h') →
  Forall well_formed_frame h' ∧ env' = length h :: env ∧
  length h' = S (length h).
Proof.
  intros Hh H. unfold extend_environment in H.
  destruct (decide (length names = length vals)) as [Hlen|];
    [|destruct (decide (length names < length vals)); discriminate].
  injection H as <- <-. split; [|split; [reflexivity|]].
  - apply Forall_app_2; [exact Hh|]. constructor; [|constructor].
    unfold well_formed_frame. simpl. by rewrite length_map.
  - rewrite length_app. simpl. lia.
Qed.

Lemma set_scan_length name (val : value number) names :
  ∀ vals vals', set_scan name val names vals = Ok vals' →
                length vals' = length vals.
Proof.
  induction names as [|n names IH]; intros vals vals' H; simpl in H;
    [discriminate|].
  destruct (decide (name = n)); destruct vals as [|slot vals];
    try discriminate.
  - by injection H as <-.
  - destruct (set_scan name val names vals) as [rest| |] eqn:Hrest;
      try discriminate.
    injection H as <-. simpl. by rewrite (IH vals rest).
Qed.

Lemma set_name_value_well_formed name (val : value number) env h h' :
  Forall well_formed_frame h →
  set_name_value name val env h = Ok h' →
  Forall well_formed_frame h' ∧ length h' = length h.
Proof.
  intros Hh H. unfold set_name_value in H.
  destruct env as [|l env]; [discriminate|].
  destruct (h !! l) as [fr|] eqn:Hl; [|discriminate].
  destruct (set_scan _ _ _ _) as [vals| |] eqn:Hvals; try discriminate.
  injection H as <-. split; [|apply length_insert].
  apply Forall_insert; [exact Hh|].
  unfold well_formed_frame. simpl.
  rewrite (set_scan_length _ _ _ _ _ Hvals).
  exact (Forall_lookup_1 _ _ _ _ Hh Hl).
Qed.

(** ** Fuel

    Fuel decides only whether a result is reached: a result other than
    [OutOfFuel] stays the same with more fuel. *)

Section MoreFuel.
Variables execute1 execute2 :
  value number → list (value number) → heap number →
  res (value number * heap number).

Hypothesis execute_more : ∀ f args h,
  execute1 f args h ≠ OutOfFuel → execute2 f args h = execute1 f args h.

Ltac settle H e :=
  let Hs := fresh "Hs" in
  assert (Hs : e ≠ OutOfFuel) by (intros Hs; rewrite Hs in H; by apply H).

Lemma exec_more x : ∀ env h,
  exec execute1 x env h ≠ OutOfFuel →
  exec execute2 x env h = exec execute1 x env h.
Proof.
  induction x as [l|name|name vfun IHv|p c a IHp IHc IHa
                 |vars locals body _| |f1 f2 IH1 IH2|locals body IHb
                 |r IHr|f args IHf IHargs] using exe_nested_ind;
    intros env h H; simpl in H |- *; try reflexivity.
  - settle H (exec execute1 vfun env h). by rewrite IHv.
  - settle H (exec execute1 p env h). rewrite IHp by done.
    destruct (exec execute1 p env h) as [[w h1]| |]; try reflexivity.
    destruct (is_true w); [by apply IHc|by apply IHa].
  - settle H (exec execute1 f1 env h). rewrite IH1 by done.
    destruct (exec execute1 f1 env h) as [[w h1]| |]; try reflexivity.
    destruct (is_return_value w); [reflexivity|by apply IH2].
  - destruct (extend_environment _ _ _ _) as [[env1 h1]| |];
      try reflexivity.
    by apply IHb.
  - settle H (exec execute1 r env h). by rewrite IHr.
  - settle H (exec execute1 f env h). rewrite IHf by done.
    destruct (exec execute1 f env h) as [[w h1]| |]; try reflexivity.
    assert (Hargs : ∀ h1,
              map_exec (λ a h', exec execute1 a env h') args h1 ≠ OutOfFuel →
              map_exec (λ a h', exec execute2 a env h') args h1 =
              map_exec (λ a h', exec execute1 a env h') args h1).
    { clear H Hs. induction IHargs as [|a args IHa _ IH]; intros h2 H;
        simpl in H |- *; [reflexivity|].
      settle H (exec execute1 a env h2). rewrite IHa by done.
      destruct (exec execute1 a env h2) as [[y h3]| |]; try reflexivity.
      settle H (map_exec (λ a h', exec execute1 a env h') args h3).
      by rewrite IH. }
    settle H (map_exec (λ a h', exec execute1 a env h') args h1).
    rewrite Hargs by done.
    destruct (map_exec _ args h1) as [[vs h2]| |]; try reflexivity.
    by apply execute_more.
Qed.
End MoreFuel.

Lemma execute_application_unfold fuel parameters locals body env args
    (h : heap number) :
  apply_compound fuel (VCompound parameters locals body env) args h =
  perform names <~ insert_all parameters locals ;;
  perform (env', h1) <~
    extend_environment names (args ++ map (λ _, no_value_yet) locals)
      env h ;;
  match fuel with
  | 0 => OutOfFuel
  | S fuel' =>
      perform (result, h2) <~ run host fuel' body env' h1 ;;
      if is_return_value result
      then perform content <~ return_value_content result ;;
           Ok (content, h2)
      else Ok (VUndefined, h2)
  end.
Proof. destruct fuel; reflexivity. Qed.

Lemma execute_application_more fuel : ∀ f args (h : heap number),
  apply_compound fuel f args h ≠ OutOfFuel →
  apply_compound (S fuel) f args h = apply_compound fuel f args h.
Proof.
  induction fuel as [|fuel IH]; intros f args h H;
    destruct f as [| | | | |impl|parameters locals body env|];
    try reflexivity; rewrite execute_application_unfold in H;
    rewrite !execute_application_unfold;
    (destruct (insert_all _ _) as [names| |]; try reflexivity);
    (destruct (extend_environment _ _ _ _) as [[env1 h1]| |];
       try reflexivity).
  - by destruct H.
  - assert (Hs : run host fuel body env1 h1 ≠ OutOfFuel)
      by (intros Hs; rewrite Hs in H; by apply H).
    unfold run in Hs |- *.
    by rewrite (exec_more _ _ IH body env1 h1 Hs).
Qed.

Lemma run_more fuel x env (h : heap number) :
  run host fuel x env h ≠ OutOfFuel →
  run host (S fuel) x env h = run host fuel x env h.
Proof. apply exec_more, execute_application_more. Qed.

(** ** Return values are not nested *)

Lemma plain_unnested (v : value number) : plain v → unnested v.
Proof. by destruct v. Qed.

Lemma plain_frame_Forall (fr : frame number) :
  plain_frame fr ↔ Forall (λ slot, plain (fst slot)) (frame_values fr).
Proof. unfold plain_frame. apply forallb_True. Qed.

Lemma plain_heap_Forall (h : heap number) :
  plain_heap h ↔ Forall (λ fr, plain_frame fr) h.
Proof. unfold plain_heap. apply forallb_True. Qed.

Lemma lookup_scan_plain name (enclosing : res (value number)) names :
  ∀ vals v,
    (∀ w, enclosing = Ok w → plain w) →
    Forall (λ slot, plain (fst slot)) vals →
    lookup_scan name enclosing names vals = Ok v →
    plain v.
Proof.
  induction names as [|n names IH]; intros vals v Hk Hvals H; simpl in H.
  - by apply Hk.
  - destruct (decide (name = n)); destruct vals as [|slot vals];
      try discriminate; apply Forall_cons in Hvals as [Hslot Hvals].
    + by injection H as <-.
    + by apply (IH vals).
Qed.

Lemma env_loop_plain name (h : heap number) env :
  plain_heap h → ∀ v, env_loop name h env = Ok v → plain v.
Proof.
  intros Hh. induction env as [|l env IH]; intros v H; simpl in H;
    [discriminate|].
  destruct (h !! l) as [fr|] eqn:Hl; [|discriminate].
  destruct (lookup_scan _ _ _ _) as [w| |] eqn:Hscan; try discriminate.
  destruct (is_no_value_yet w); [discriminate|]. injection H as <-.
  apply (lookup_scan_plain _ _ _ _ _ IH) in Hscan; [exact Hscan|].
  apply plain_frame_Forall.
  apply plain_heap_Forall in Hh. exact (Forall_lookup_1 _ _ _ _ Hh Hl).
Qed.

Lemma set_scan_plain name (val : value number) names :
  ∀ vals vals',
    plain val →
    Forall (λ slot, plain (fst slot)) vals →
    set_scan name val names vals = Ok vals' →
    Forall (λ slot, plain (fst slot)) vals'.
Proof.
  induction names as [|n names IH]; intros vals vals' Hval Hvals H;
    simpl in H; [discriminate|].
  destruct (decide (name = n)); destruct vals as [|slot vals];
    try discriminate; apply Forall_cons in Hvals as [Hslot Hvals].
  - injection H as <-. by constructor.
  - destruct (set_scan name val names vals) as [rest| |] eqn:Hrest;
      try discriminate.
    injection H as <-. constructor; [exact Hslot|]. by apply (IH vals).
Qed.

Lemma set_name_value_plain name (val : value number) env h h' :
  plain val → plain_heap h →
  set_name_value name val env h = Ok h' →
  plain_heap h'.
Proof.
  intros Hval Hh H. unfold set_name_value in H.
  destruct env as [|l env]; [discriminate|].
  destruct (h !! l) as [fr|] eqn:Hl; [|discriminate].
  destruct (set_scan _ _ _ _) as [vals| |] eqn:Hvals; try discriminate.
  injection H as <-.
  apply plain_heap_Forall. apply plain_heap_Forall in Hh.
  apply Forall_insert; [exact Hh|].
  apply plain_frame_Forall. simpl.
  apply (set_scan_plain _ _ _ _ _ Hval) in Hvals; [exact Hvals|].
  apply plain_frame_Forall. exact (Forall_lookup_1 _ _ _ _ Hh Hl).
Qed.

Lemma slots_plain (vals : list (value number)) (flag : bool) :
  Forall (λ v, plain v) vals →
  Forall (λ slot : value number * bool, plain (fst slot))
    (map (λ x, (x, flag)) vals).
Proof.
  induction 1 as [|v vals Hv _ IH]; simpl;
    [apply Forall_nil_2|by apply Forall_cons_2].
Qed.

Lemma extend_environment_plain names (vals : list (value number)) env h env' h' :
  plain_heap h → Forall (λ v, plain v) vals →
  extend_environment names vals env h = Ok (env', h') →
  plain_heap h'.
Proof.
  intros Hh Hvals H. unfold extend_environment in H.
  destruct (decide (length names = length vals));
    [|destruct (decide (length names < length vals)); discriminate].
  injection H as _ <-.
  apply plain_heap_Forall. apply plain_heap_Forall in Hh.
  apply Forall_app_2; [exact Hh|]. constructor; [|constructor].
  apply plain_frame_Forall. simpl. by apply slots_plain.
Qed.

Lemma sentinels_plain (locals : list string) :
  Forall (λ v : value number, plain v) (map (λ _, no_value_yet) locals).
Proof. induction locals; simpl; constructor; [exact I|assumption]. Qed.

Section Plain.
Variable execute :
  value number → list (value number) → heap number →
  res (value number * heap number).

Hypothesis execute_plain : ∀ f args h v h',
  plain f → Forall (λ a, plain a) args → plain_heap h →
  execute f args h = Ok (v, h') →
  plain_heap h' ∧ plain v.

(** A statement that follows the grammar keeps the store free of return
    values and has a value with at most one return value around it; an
    expression has a plain value. *)
Lemma exec_plain x : ∀ env h v h',
  grammatical x → plain_heap h →
  exec execute x env h = Ok (v, h') →
  plain_heap h' ∧ unnested v ∧ (is_expression x → plain v).
Proof.
  induction x as [l|name|name vfun IHv|p c a IHp IHc IHa
                 |vars locals body _| |f1 f2 IH1 IH2|locals body IHb
                 |r IHr|f args IHf IHargs] using exe_nested_ind;
    intros env h v h' Hg Hh Hrun; simpl in Hg, Hrun.
  - injection Hrun as <- <-. by destruct l.
  - destruct (lookup_name_value name env h) as [w| |] eqn:Hw;
      try discriminate.
    injection Hrun as <- <-.
    apply (env_loop_plain _ _ _ Hh) in Hw.
    auto using plain_unnested.
  - apply andb_True in Hg as [He Hg].
    destruct (exec execute vfun env h) as [[w h1]| |] eqn:Hw;
      try discriminate.
    destruct (IHv _ _ _ _ Hg Hh Hw) as (Hh1 & _ & Hplain).
    destruct (set_name_value name w env h1) as [h2| |] eqn:Hset;
      try discriminate.
    injection Hrun as <- <-.
    split; [|done].
    by apply (set_name_value_plain _ _ _ _ _ (Hplain He) Hh1 Hset).
  - repeat (apply andb_True in Hg as [Hg ?]).
    destruct (exec execute p env h) as [[w h1]| |] eqn:Hw;
      try discriminate.
    destruct (IHp _ _ _ _ ltac:(eassumption) Hh Hw) as (Hh1 & _ & _).
    destruct (is_true w).
    + destruct (IHc _ _ _ _ ltac:(eassumption) Hh1 Hrun) as (? & ? & Hpl).
      auto.
    + destruct (IHa _ _ _ _ ltac:(eassumption) Hh1 Hrun) as (? & ? & Hpl).
      auto.
  - injection Hrun as <- <-. done.
  - injection Hrun as <- <-. done.
  - apply andb_True in Hg as [Hg1 Hg2].
    destruct (exec execute f1 env h) as [[w h1]| |] eqn:Hw;
      try discriminate.
    destruct (IH1 _ _ _ _ Hg1 Hh Hw) as (Hh1 & Hw1 & _).
    destruct (is_return_value w) eqn:Hret.
    + injection Hrun as <- <-. done.
    + destruct (IH2 _ _ _ _ Hg2 Hh1 Hrun) as (? & ? & _). done.
  - destruct (extend_environment _ _ _ _) as [[env1 h1]| |] eqn:Hext;
      try discriminate.
    apply (extend_environment_plain _ _ _ _ _ _ Hh (sentinels_plain _))
      in Hext.
    destruct (IHb _ _ _ _ Hg Hext Hrun) as (? & ? & _). done.
  - apply andb_True in Hg as [He Hg].
    destruct (exec execute r env h) as [[w h1]| |] eqn:Hw;
      try discriminate.
    destruct (IHr _ _ _ _ Hg Hh Hw) as (Hh1 & _ & Hplain).
    injection Hrun as <- <-. split; [exact Hh1|]. split; [|done].
    simpl. by apply Hplain.
  - apply andb_True in Hg as [Hg Hgargs].
    apply andb_True in Hg as [He Hg].
    destruct (exec execute f env h) as [[w h1]| |] eqn:Hw;
      try discriminate.
    destruct (IHf _ _ _ _ Hg Hh Hw) as (Hh1 & _ & Hplain).
    destruct (map_exec _ args h1) as [[vs h2]| |] eqn:Hvs;
      try discriminate.
    assert (Hargs : plain_heap h2 ∧ Forall (λ a, plain a) vs).
    { clear Hrun Hw. apply forallb_True in Hgargs.
      revert h1 vs h2 Hh1 Hvs.
      induction IHargs as [|a args IHa _ IH]; intros h1 vs h2 Hh1 Hvs;
        simpl in Hvs.
      - injection Hvs as <- <-. by split.
      - apply Forall_cons in Hgargs as [Ha Hgargs].
        apply andb_True in Ha as [Hea Hga].
        destruct (exec execute a env h1) as [[y h1']| |] eqn:Hy;
          try discriminate.
        destruct (IHa _ _ _ _ Hga Hh1 Hy) as (Hh1' & _ & Hpl).
        destruct (map_exec _ args h1') as [[ys h2']| |] eqn:Hys;
          try discriminate.
        injection Hvs as <- <-.
        destruct (IH Hgargs _ _ _ Hh1' Hys) as [? ?].
        split; [done|]. constructor; auto. }
    destruct Hargs as [Hh2 Hvs'].
    destruct (execute_plain _ _ _ _ _ (Hplain He) Hvs' Hh2 Hrun).
    auto using plain_unnested.
Qed.
End Plain.

Lemma execute_application_plain :
  host_plain host →
  ∀ fuel f args (h : heap number) v h',
    plain f → Forall (λ a, plain a) args → plain_heap h →
    apply_compound fuel f args h = Ok (v, h') →
    plain_heap h' ∧ plain v.
Proof.
  intros Hhost.
  induction fuel as [|fuel IH]; intros f args h v h' Hf Hargs Hh Hrun;
    destruct f as [| | | | |impl|parameters locals body env|];
    simpl in Hrun; try discriminate.
  - destruct (apply_primitive_function host impl args) as [w| |] eqn:Hw;
      try discriminate.
    injection Hrun as <- <-. split; [exact Hh|]. by apply (Hhost impl args).
  - destruct (insert_all _ _) as [names| |]; try discriminate.
    destruct (extend_environment _ _ _ _) as [[env1 h1]| |]; discriminate.
  - destruct (apply_primitive_function host impl args) as [w| |] eqn:Hw;
      try discriminate.
    injection Hrun as <- <-. split; [exact Hh|]. by apply (Hhost impl args).
  - destruct (insert_all _ _) as [names| |]; try discriminate.
    destruct (extend_environment _ _ _ _) as [[env1 h1]| |] eqn:Hext;
      try discriminate.
    apply extend_environment_plain in Hext;
      [|exact Hh|apply Forall_app_2; [exact Hargs|apply sentinels_plain]].
    destruct (exec _ body env1 h1) as [[result h2]| |] eqn:Hbody;
      try discriminate.
    destruct (exec_plain _ IH body _ _ _ _ Hf Hext Hbody) as (Hh2 & Hres & _).
    destruct result; simpl in Hrun; injection Hrun as <- <-; done.
Qed.

(** C8.  Once the frame of a call is built, a return value as the result
    of the body makes the call return the content of that return value,
    and any other result of the body makes it return [undefined].  For a
    function whose body follows the grammar of the language, applied to
    plain arguments in a store without return values, on a host whose
    primitive functions return plain values for plain arguments, the value
    that the call returns is not a return value. *)
Theorem call_returns_content :
  (∀ fuel parameters locals body env args (h : heap number) names env' h1,
     insert_all (number:=number) parameters locals = Ok names →
     extend_environment names (args ++ map (λ _, no_value_yet) locals)
       env h = Ok (env', h1) →
     (∀ content h2,
        run host fuel body env' h1 = Ok (VReturn content, h2) →
        apply_compound (S fuel) (VCompound parameters locals body env) args h =
        Ok (content, h2)) ∧
     (∀ v h2,
        run host fuel body env' h1 = Ok (v, h2) →
        is_return_value v = false →
        apply_compound (S fuel) (VCompound parameters locals body env) args h =
        Ok (VUndefined, h2))) ∧
  (host_plain host →
   ∀ fuel parameters locals body env args (h : heap number) v h',
     grammatical body →
     Forall (λ a, plain a) args →
     plain_heap h →
     apply_compound fuel (VCompound parameters locals body env) args h =
     Ok (v, h') →
     is_return_value v = false ∧ plain v ∧ plain_heap h').
Proof.
  split.
  - intros fuel parameters locals body env args h names env' h1 Hins Hext.
    split.
    + intros content h2 Hbody. simpl. rewrite Hins, Hext.
      unfold run in Hbody. by rewrite Hbody.
    + intros v h2 Hbody Hv. simpl. rewrite Hins, Hext.
      unfold run in Hbody. rewrite Hbody. by rewrite Hv.
  - intros Hhost fuel parameters locals body env args h v h' Hg Hargs Hh Hrun.
    destruct (execute_application_plain Hhost fuel
                (VCompound parameters locals body env) args h v h'
                Hg Hargs Hh Hrun) as [Hh' Hv].
    split; [|done]. by destruct v.
Qed.

(** The analysis of a program that follows the grammar gives an
    execution function that follows it. *)
Lemma loop_grammatical rest : ∀ first : exe number,
  grammatical first → Forall (λ f, grammatical f) rest →
  grammatical (loop first rest).
Proof.
  induction rest as [|f rest IH]; intros first Hfirst Hrest; [done|].
  apply Forall_cons in Hrest as [Hf Hrest].
  simpl. apply IH; [|exact Hrest]. simpl. by apply andb_True.
Qed.

Lemma analyze_grammatical (s : stmt number) : ∀ x,
  conforms s → analyze s = Ok x →
  grammatical x ∧ (is_expression_node s → is_expression x).
Proof.
  induction s as [l|name|name value IHv|p c a IHp IHc IHa|vars body IHb
                 |stmts IH|body IHb|e IHe|f ops IHf IHops|]
    using stmt_nested_ind; intros x Hc Hx; simpl in Hc, Hx.
  - by injection Hx as <-.
  - by injection Hx as <-.
  - apply andb_True in Hc as [He Hc].
    destruct (analyze value) as [vfun| |]; try discriminate.
    injection Hx as <-. destruct (IHv _ Hc eq_refl) as [Hg Hex].
    split; [|done]. simpl. apply andb_True. auto.
  - repeat (apply andb_True in Hc as [Hc ?]).
    destruct (analyze p) as [pfun| |]; try discriminate.
    destruct (analyze c) as [cfun| |]; try discriminate.
    destruct (analyze a) as [afun| |]; try discriminate.
    injection Hx as <-.
    destruct (IHp _ ltac:(eassumption) eq_refl) as [? ?].
    destruct (IHc _ ltac:(eassumption) eq_refl) as [? ?].
    destruct (IHa _ ltac:(eassumption) eq_refl) as [? ?].
    split; [|done]. simpl. repeat (apply andb_True; split); auto.
  - destruct (local_names body) as [locals| |]; try discriminate.
    destruct (analyze body) as [body_fun| |]; try discriminate.
    injection Hx as <-. destruct (IHb _ Hc eq_refl) as [Hg _]. done.
  - destruct (map_res analyze stmts) as [funs| |] eqn:Hfuns;
      try discriminate.
    injection Hx as <-. split; [|done].
    assert (Hall : Forall (λ f, grammatical f) funs).
    { apply forallb_True in Hc. revert funs Hfuns.
      induction IH as [|s stmts IHs _ IHl]; intros funs Hfuns;
        simpl in Hfuns.
      - injection Hfuns as <-. constructor.
      - apply Forall_cons in Hc as [Hs Hc].
        destruct (analyze s) as [y| |]; try discriminate.
        destruct (map_res analyze stmts) as [ys| |]; try discriminate.
        injection Hfuns as <-.
        constructor; [by apply (IHs y)|by apply IHl]. }
    destruct Hall as [|f rest Hf Hrest]; [done|].
    by apply loop_grammatical.
  - destruct (local_names body) as [locals| |]; try discriminate.
    destruct (analyze body) as [body_func| |]; try discriminate.
    injection Hx as <-. destruct (IHb _ Hc eq_refl) as [Hg _]. done.
  - apply andb_True in Hc as [He Hc].
    destruct (analyze e) as [r| |]; try discriminate.
    injection Hx as <-. destruct (IHe _ Hc eq_refl) as [Hg Hex].
    split; [|done]. simpl. apply andb_True. auto.
  - apply andb_True in Hc as [Hc Hops].
    apply andb_True in Hc as [He Hc].
    destruct (analyze f) as [ff| |]; try discriminate.
    destruct (map_res analyze ops) as [afs| |] eqn:Hafs; try discriminate.
    injection Hx as <-. destruct (IHf _ Hc eq_refl) as [Hg Hex].
    split; [|done]. simpl.
    apply andb_True. split; [apply andb_True; auto|].
    apply forallb_True. apply forallb_True in Hops. revert afs Hafs.
    induction IHops as [|o ops IHo _ IHl]; intros afs Hafs; simpl in Hafs.
    + injection Hafs as <-. constructor.
    + apply Forall_cons in Hops as [Ho Hops].
      apply andb_True in Ho as [Heo Hco].
      destruct (analyze o) as [y| |]; try discriminate.
      destruct (map_res analyze ops) as [ys| |]; try discriminate.
      injection Hafs as <-. destruct (IHo _ Hco eq_refl) as [? ?].
      constructor; [apply andb_True; auto|by apply IHl].
  - destruct Hc.
Qed.

Lemma global_heap_plain : plain_heap (the_global_heap math_PI).
Proof. exact I. Qed.

(** Every value that the top level returns for a program that follows
    the grammar is plain, and so is the store: the hypotheses of C8 hold
    at every call made while such a program runs. *)
Lemma eval_toplevel_plain fuel (s : stmt number) v h :
  host_plain host → conforms s →
  eval_toplevel math_PI host fuel s = Ok (v, h) →
  plain v ∧ plain_heap h.
Proof.
  intros Hhost Hc H. unfold eval_toplevel, evaluate in H.
  destruct (analyze (make_block s)) as [x| |] eqn:Hx; try discriminate.
  destruct (run host fuel x _ _) as [[w h1]| |] eqn:Hrun; try discriminate.
  destruct (is_return_value w) eqn:Hw; [discriminate|].
  injection H as <- <-.
  destruct (analyze_grammatical (make_block s) x Hc Hx) as [Hg _].
  destruct (exec_plain _ (execute_application_plain Hhost fuel)
              x _ _ _ _ Hg global_heap_plain Hrun) as (Hh1 & Hun & _).
  split; [|exact Hh1]. by destruct w.
Qed.

End Properties.

(** ** Instances on the example programs *)

Lemma duplicate_declaration_witness :
  ¬ NoDup (direct_declarations Examples.duplicate_body) ∧
  ∃ x, occurs_twice x (direct_declarations Examples.duplicate_body) ∧
       local_names Examples.duplicate_body = Err (MultipleDeclarations x) ∧
       analyze (Block Examples.duplicate_body) =
       Err (MultipleDeclarations x) ∧
       (∀ vars,
          analyze (FunctionDefinition vars Examples.duplicate_body) =
          Err (MultipleDeclarations x)) ∧
       (∀ fuel env h,
          evaluate integer_host fuel (Block Examples.duplicate_body) env h =
          Err (MultipleDeclarations x)) ∧
       (∀ fuel vars env h,
          evaluate integer_host fuel
            (FunctionDefinition vars Examples.duplicate_body) env h =
          Err (MultipleDeclarations x)).
Proof.
  assert (Hdup : ¬ NoDup (direct_declarations Examples.duplicate_body)).
  { simpl. intros Hnd. apply NoDup_cons in Hnd as [Hx _]. apply Hx. left. }
  split; [exact Hdup|].
  exact (duplicate_declaration_is_static integer_host
           Examples.duplicate_body Hdup).
Defined.

Lemma parameter_local_collision_witness :
  ∃ y, ∀ fuel env args h,
    execute_application integer_host fuel
      (VCompound ["x"] ["x"] (XSeq (XConst "x" (XSelf (LNumber 1%Z)))
                                  (XReturn (XName "x"))) env) args h =
    Err (MultipleDeclarations y).
Proof.
  destruct (parameter_local_collision integer_host ["x"]
              Examples.collision_body ["x"]
              (XSeq (XConst "x" (XSelf (LNumber 1%Z))) (XReturn (XName "x")))
              "x" eq_refl eq_refl)
    as (_ & _ & y & _ & _ & Hy).
  - left.
  - left.
  - exists y. exact Hy.
Defined.


Lemma lookup_name_value_witness :
  lookup_name_value "x" [1; 0]
    [ make_frame ["x"] [(VNumber 1%Z, false)];
      make_frame ["y"; "x"] [(VNumber 2%Z, false); (VNoValueYet, false)] ] =
  Err (NameUsedBeforeDeclaration "x").
Proof.
  refine (proj1 (proj1 (proj2 (lookup_name_value_cases "x")
            [ make_frame ["x"] [(VNumber 1%Z, false)];
              make_frame ["y"; "x"]
                [(VNumber 2%Z, false); (VNoValueYet, false)] ]
            1 [0] _ eq_refl) VNoValueYet _) eq_refl).
  exists 1, false. simpl. repeat split.
  intros [|j] Hj; [discriminate|lia].
Defined.

Lemma innermost_declaration_witness :
  lookup_name_value "x" [2; 1; 0]
    [ make_frame ["x"] [(VNumber 1%Z, false)];
      make_frame ["x"] [(VNoValueYet, false)];
      make_frame ["y"] [(VNumber 2%Z, false)] ] =
  Err (NameUsedBeforeDeclaration "x") ∧
  lookup_name_value "x" [0]
    [ make_frame ["x"] [(VNumber 1%Z, false)];
      make_frame ["x"] [(VNoValueYet, false)];
      make_frame ["y"] [(VNumber 2%Z, false)] ] =
  Ok (VNumber 1%Z).
Proof.
  split; [|reflexivity].
  refine (proj1 (innermost_declaration_shadows "x"
            [ make_frame ["x"] [(VNumber 1%Z, false)];
              make_frame ["x"] [(VNoValueYet, false)];
              make_frame ["y"] [(VNumber 2%Z, false)] ]
            [2] 1 [0] _ VNoValueYet _ eq_refl _) eq_refl).
  - constructor; [|constructor].
    eexists. split; [reflexivity|]. split; [reflexivity|].
    simpl. intros Hin. apply list_elem_of_singleton in Hin. discriminate.
  - exists 0, false. simpl. repeat split. intros j Hj. lia.
Defined.

Lemma conditional_exactly_true_witness :
  run integer_host 0
    (XCond (XSelf (LNumber 0%Z)) (XSelf (LNumber 1%Z)) (XSelf (LNumber 2%Z)))
    [] [] =
  Ok (VNumber 2%Z, []).
Proof.
  refine (proj2 (proj2 (conditional_exactly_true integer_host
            (Examples.num 0) (Examples.num 1) (Examples.num 2)
            _ _ _ eq_refl eq_refl eq_refl)
          0 [] [] (VNumber 0%Z) [] eq_refl) _).
  discriminate.
Defined.

Lemma sequence_runs_in_order_witness :
  analyze Examples.return_program =
  Ok (analyze_sequence [ XSelf (LNumber 1%Z); XReturn (XSelf (LNumber 2%Z));
                    XSelf (LNumber 3%Z) ]) ∧
  run integer_host 0
    (analyze_sequence [ XSelf (LNumber 1%Z); XReturn (XSelf (LNumber 2%Z));
                   XSelf (LNumber 3%Z) ]) [] [] =
  Ok (VReturn (VNumber 2%Z), []).
Proof.
  destruct (sequence_runs_in_order integer_host
              [ Examples.num 1; ReturnStatement (Examples.num 2);
                Examples.num 3 ]
              [ XSelf (LNumber 1%Z); XReturn (XSelf (LNumber 2%Z));
                XSelf (LNumber 3%Z) ] eq_refl)
    as (Hanalyze & _ & Hreturn & _).
  split; [exact Hanalyze|].
  apply (Hreturn 0 [] [XSelf (LNumber 1%Z)] (XReturn (XSelf (LNumber 2%Z)))
           [XSelf (LNumber 3%Z)] [] []).
  - reflexivity.
  - apply runs_through_cons with (VNumber 1%Z) []; [reflexivity..|].
    apply runs_through_nil.
  - reflexivity.
  - reflexivity.
Defined.

Lemma eval_toplevel_cases_witness :
  eval_toplevel integer_PI integer_host 0 Examples.return_program =
  Err ReturnNotAllowed.
Proof.
  destruct (eval_toplevel_cases integer_PI integer_host 0
              Examples.return_program) as (_ & _ & Hcases & _).
  eapply Hcases; reflexivity.
Defined.

Lemma closure_lexical_scope_witness :
  let body := XReturn (XName "x") in
  let h := [ make_frame ["x"; "g"]
               [ (VNumber 1%Z, false); (VCompound [] [] body [0], false) ];
             make_frame ["x"] [ (VNumber 2%Z, false) ] ] in
  run integer_host 1 (XApp (XName "g") []) [1; 0] h =
  Ok (VNumber 1%Z, h ++ [make_frame [] []]).
Proof.
  intros body h.
  exact (proj1 (proj2 (closure_lexical_scope integer_host)
                 0 (XName "g") [] [1; 0] h [] [] body [0] h [] h []
                 eq_refl eq_refl eq_refl eq_refl)).
Defined.

Lemma integer_host_plain : host_plain integer_host.
Proof.
  intros impl args v Hargs H. unfold integer_host in H.
  repeat case_match; simplify_eq; try done.
  by apply Forall_cons in Hargs as [Hv _].
Qed.

Lemma call_returns_content_witness :
  execute_application integer_host 1
    (VCompound [] [] (XReturn (XSelf (LNumber 1%Z))) []) [] [] =
  Ok (VNumber 1%Z, [make_frame [] []]) ∧
  is_return_value (VNumber 1%Z) = false.
Proof.
  split; [reflexivity|].
  apply (proj2 (call_returns_content integer_host) integer_host_plain
           1 [] [] (XReturn (XSelf (LNumber 1%Z))) [] [] []
           (VNumber 1%Z) [make_frame [] []]).
  - exact I.
  - constructor.
  - exact I.
  - reflexivity.
Defined.

(** The analysis accepts a return statement whose expression is again a
    return statement, as in a function with the body [return (return 1)],
    which the grammar of the language excludes; the call of that function
    takes one return value off the result of the body and returns the
    other. *)
Lemma nested_return_counterexample :
  analyze (FunctionDefinition []
             (ReturnStatement (ReturnStatement (Examples.num 1)))) =
  Ok (XFunDef [] [] (XReturn (XReturn (XSelf (LNumber 1%Z))))) ∧
  run integer_host 0
    (XFunDef [] [] (XReturn (XReturn (XSelf (LNumber 1%Z))))) [] [] =
  Ok (VCompound [] [] (XReturn (XReturn (XSelf (LNumber 1%Z)))) [], []) ∧
  execute_application integer_host 1
    (VCompound [] [] (XReturn (XReturn (XSelf (LNumber 1%Z)))) []) [] [] =
  Ok (VReturn (VNumber 1%Z), [make_frame [] []]) ∧
  is_return_value (VReturn (VNumber 1%Z)) = true ∧
  ¬ (∀ fuel parameters locals body env args (h : heap Z) v h',
       execute_application integer_host fuel
         (VCompound parameters locals body env) args h = Ok (v, h') →
       is_return_value v = false).
Proof.
  repeat (split; [reflexivity|]).
  intros H.
  specialize (H 1 [] [] (XReturn (XReturn (XSelf (LNumber 1%Z)))) [] [] []
                (VReturn (VNumber 1%Z)) [make_frame [] []] eq_refl).
  discriminate H.
Qed.

(** ** The scenarios of the specification *)

Example sum_program_value :
  Examples.toplevel 1 Examples.sum_program = Ok (VNumber 3%Z).
Proof. reflexivity. Qed.

Example factorial_program_value :
  Examples.toplevel 6 Examples.factorial_program = Ok (VNumber 120%Z).
Proof. reflexivity. Qed.

Example factorial_program_fuel :
  Examples.toplevel 5 Examples.factorial_program = OutOfFuel.
Proof. reflexivity. Qed.

(** The function returned by [make] is called inside a block that has its
    own [x]; the call still gives the [x] of the definition. *)
Example closure_program_value :
  Examples.toplevel 1 Examples.closure_program = Ok (VNumber 1%Z).
Proof. reflexivity. Qed.

Example forward_reference_program_error :
  Examples.toplevel 1 Examples.forward_reference_program =
  Err (NameUsedBeforeDeclaration "a").
Proof. reflexivity. Qed.

Example arity_program_too_many :
  Examples.toplevel 1 (Examples.arity_program [Examples.num 1; Examples.num 2]) =
  Err (TooManyArguments ["a"] [VNumber 1%Z; VNumber 2%Z]).
Proof. reflexivity. Qed.

Example arity_program_too_few :
  Examples.toplevel 1 (Examples.arity_program []) =
  Err (TooFewArguments ["a"] []).
Proof. reflexivity. Qed.

Example arity_program_exact :
  Examples.toplevel 1 (Examples.arity_program [Examples.num 7]) =
  Ok (VNumber 7%Z).
Proof. reflexivity. Qed.

Example conditional_program_true :
  Examples.toplevel 0 (Examples.conditional_program (Literal (LBoolean true))) =
  Ok (VNumber 1%Z).
Proof. reflexivity. Qed.

Example conditional_program_zero :
  Examples.toplevel 0 (Examples.conditional_program (Examples.num 0)) =
  Ok (VNumber 2%Z).
Proof. reflexivity. Qed.

Example shadow_program_error :
  Examples.toplevel 0 Examples.shadow_program =
  Err (NameUsedBeforeDeclaration "x").
Proof. reflexivity. Qed.

Example duplicate_body_error :
  Examples.toplevel 0 (Block Examples.duplicate_body) =
  Err (MultipleDeclarations "x").
Proof. reflexivity. Qed.

Example collision_program_analysis :
  ∃ x, analyze Examples.collision_program = Ok x.
Proof. eexists. reflexivity. Qed.

Example collision_program_error :
  Examples.toplevel 1 Examples.collision_program =
  Err (MultipleDeclarations "x").
Proof. reflexivity. Qed.

Example return_program_error :
  Examples.toplevel 0 Examples.return_program = Err ReturnNotAllowed.
Proof. reflexivity. Qed.


(** * Further properties of the evaluator *)

Section Coverage.

Context {number : Type}.
Variable math_PI : number.
Variable host : primitive → list (value number) → outcome number (value number).

Local Abbreviation res A := (outcome number A).
Local Abbreviation apply_compound := (execute_application host).

(** ** Collecting names *)

(** X1.  [local_names] succeeds exactly when the direct declarations are
    pairwise different, and then returns them in the order of the
    program; declarations inside nested blocks and function bodies are
    not among them. *)
Theorem local_names_characterised (s : stmt number) l :
  local_names s = Ok l ↔ l = direct_declarations s ∧ NoDup l.
Proof.
  destruct (local_names_cases s) as [[Hok Hnd]|(x & Herr & Htwice)].
  - rewrite Hok. split.
    + by intros [= <-].
    + by intros [-> _].
  - rewrite Herr. split; [discriminate|].
    intros [-> Hnd]. destruct (occurs_twice_not_NoDup _ _ Htwice Hnd).
Qed.

Lemma insert_all_collision_at (ys pre : list string) x post :
  (∀ y, y ∈ pre → y ∉ ys) → x ∈ ys →
  insert_all (number:=number) (pre ++ x :: post) ys =
  Err (MultipleDeclarations x).
Proof.
  intros Hpre Hx. induction pre as [|z pre IH]; simpl.
  - apply member_true in Hx. by rewrite Hx.
  - assert (Hz : member z ys = false) by (apply member_false, Hpre; left).
    rewrite Hz, IH; [reflexivity|].
    intros y Hy. apply Hpre. by right.
Qed.

Lemma insert_all_first_cases (xs ys : list string) :
  (insert_all (number:=number) xs ys = Ok (xs ++ ys) ∧
   ∀ x, x ∈ xs → x ∉ ys) ∨
  (∃ pre x post,
     xs = pre ++ x :: post ∧ (∀ y, y ∈ pre → y ∉ ys) ∧ x ∈ ys).
Proof.
  induction xs as [|x xs IH].
  - left. split; [reflexivity|]. intros x Hx. inversion Hx.
  - destruct (decide (x ∈ ys)) as [Hx|Hx].
    + right. exists [], x, xs. split; [reflexivity|]. split; [|exact Hx].
      intros y Hy. inversion Hy.
    + destruct IH as [[Hok Hdisj]|(pre & y & post & -> & Hpre & Hy)].
      * left. simpl. apply member_false in Hx. rewrite Hx, Hok.
        split; [reflexivity|]. apply member_false in Hx.
        intros z Hz. apply elem_of_cons in Hz as [->|Hz]; auto.
      * right. exists (x :: pre), y, post.
        split; [reflexivity|]. split; [|exact Hy].
        intros z Hz. apply elem_of_cons in Hz as [->|Hz]; auto.
Qed.

(** X2.  [insert_all xs ys] compares the names of [xs] with [ys] only: it
    returns [xs ++ ys] exactly when no name of [xs] stands in [ys], also
    when [xs] itself has a name twice, and otherwise fails for the first
    name of [xs] that stands in [ys]. *)
Theorem insert_all_first_collision (xs ys : list string) :
  (∀ l, insert_all (number:=number) xs ys = Ok l ↔
        l = xs ++ ys ∧ ∀ x, x ∈ xs → x ∉ ys) ∧
  (∀ e, insert_all (number:=number) xs ys = Err e ↔
        ∃ pre x post,
          xs = pre ++ x :: post ∧ (∀ y, y ∈ pre → y ∉ ys) ∧ x ∈ ys ∧
          e = MultipleDeclarations x) ∧
  insert_all (number:=number) xs ys ≠ OutOfFuel.
Proof.
  destruct (insert_all_first_cases xs ys)
    as [[Hok Hdisj]|(pre & x & post & -> & Hpre & Hx)].
  - rewrite Hok. split; [|split]; [| |discriminate].
    + intros l. split; [by intros [= <-]|by intros [-> _]].
    + intros e. split; [discriminate|].
      intros (pre & x & post & -> & _ & Hx & _).
      destruct (Hdisj x); [|exact Hx]. apply elem_of_app. right. left.
  - rewrite (insert_all_collision_at ys pre x post Hpre Hx).
    split; [|split]; [| |discriminate].
    + intros l. split; [discriminate|].
      intros [_ Hdisj]. destruct (Hdisj x); [|exact Hx].
      apply elem_of_app. right. left.
    + intros e. split.
      * intros [= <-]. by exists pre, x, post.
      * intros (pre' & x' & post' & Heq & Hpre' & Hx' & ->).
        rewrite <- (insert_all_collision_at ys pre' x' post' Hpre' Hx').
        rewrite <- Heq. symmetry.
        by apply insert_all_collision_at.
Qed.

(** ** Analysis *)

Lemma map_res_cases {A B : Type} (f : A → res B) (P : A → bool)
    (Q : error number → Prop) (xs : list A) :
  Forall (λ x, (P x ∧ ∃ y, f x = Ok y) ∨
               (¬ P x ∧ ∃ e, f x = Err e ∧ Q e)) xs →
  (forallb P xs ∧ ∃ ys, map_res f xs = Ok ys) ∨
  (¬ forallb P xs ∧ ∃ e, map_res f xs = Err e ∧ Q e).
Proof.
  induction 1 as [|x xs Hx _ IH]; simpl.
  - left. split; [exact I|]. by eexists.
  - destruct Hx as [[Hp [y ->]]|[Hp (e & -> & He)]].
    + destruct IH as [[Hps [ys ->]]|[Hps (e & -> & He)]].
      * left. split; [by apply andb_True|]. by eexists.
      * right. split; [|by eexists].
        intros [_ H]%andb_True. by apply Hps.
    + right. split; [|by eexists].
      intros [H _]%andb_True. by apply Hp.
Qed.

Lemma local_names_decided (body : stmt number) :
  (bool_decide (NoDup (direct_declarations body)) ∧
   local_names body = Ok (direct_declarations body)) ∨
  (¬ bool_decide (NoDup (direct_declarations body)) ∧
   ∃ x, local_names body = Err (MultipleDeclarations x)).
Proof.
  destruct (local_names_cases body) as [[Hok Hnd]|(x & Herr & Htwice)].
  - left. split; [by apply bool_decide_pack|exact Hok].
  - right. split; [|by exists x].
    intros Hnd%bool_decide_unpack.
    destruct (occurs_twice_not_NoDup _ _ Htwice Hnd).
Qed.

Lemma analyze_cases (s : stmt number) :
  (analyzable s ∧ ∃ x, analyze s = Ok x) ∨
  (¬ analyzable s ∧
   ∃ e, analyze s = Err e ∧
        (e = UnknownStatementType ∨ ∃ x, e = MultipleDeclarations x)).
Proof.
  induction s as [l|name|name value IHv|p c a IHp IHc IHa|vars body IHb
                 |stmts IH|body IHb|e IHe|f ops IHf IHops|]
    using stmt_nested_ind; simpl.
  - left. split; [exact I|]. by eexists.
  - left. split; [exact I|]. by eexists.
  - destruct IHv as [[Hv [x ->]]|[Hv (e & -> & He)]].
    + left. split; [exact Hv|]. by eexists.
    + right. split; [exact Hv|]. by eexists.
  - destruct IHp as [[Hp [x ->]]|[Hp (e & -> & He)]].
    + destruct IHc as [[Hc [y ->]]|[Hc (e & -> & He)]].
      * destruct IHa as [[Ha [z ->]]|[Ha (e & -> & He)]].
        -- left. split; [by repeat (apply andb_True; split)|]. by eexists.
        -- right. split; [|by eexists].
           intros [_ H]%andb_True. by apply Ha.
      * right. split; [|by eexists].
        intros [[_ H]%andb_True _]%andb_True. by apply Hc.
    + right. split; [|by eexists].
      intros [[H _]%andb_True _]%andb_True. by apply Hp.
  - destruct (local_names_decided body) as [[Hnd ->]|[Hnd (x & ->)]].
    + destruct IHb as [[Hb [x ->]]|[Hb (e & -> & He)]].
      * left. split; [by apply andb_True|]. by eexists.
      * right. split; [|by eexists].
        intros [_ H]%andb_True. by apply Hb.
    + right. split; [|eexists; split; [reflexivity|right; by exists x]].
      intros [H _]%andb_True. by apply Hnd.
  - destruct (map_res_cases analyze analyzable
                (λ e, e = UnknownStatementType ∨
                      ∃ x, e = MultipleDeclarations x) stmts IH)
      as [[Hs [funs ->]]|[Hs (e & -> & He)]].
    + left. split; [exact Hs|]. by eexists.
    + right. split; [exact Hs|]. by eexists.
  - destruct (local_names_decided body) as [[Hnd ->]|[Hnd (x & ->)]].
    + destruct IHb as [[Hb [x ->]]|[Hb (e & -> & He)]].
      * left. split; [by apply andb_True|]. by eexists.
      * right. split; [|by eexists].
        intros [_ H]%andb_True. by apply Hb.
    + right. split; [|eexists; split; [reflexivity|right; by exists x]].
      intros [H _]%andb_True. by apply Hnd.
  - destruct IHe as [[He [x ->]]|[He (e' & -> & He')]].
    + left. split; [exact He|]. by eexists.
    + right. split; [exact He|]. by eexists.
  - destruct IHf as [[Hf [x ->]]|[Hf (e & -> & He)]].
    + destruct (map_res_cases analyze analyzable
                  (λ e, e = UnknownStatementType ∨
                        ∃ x, e = MultipleDeclarations x) ops IHops)
        as [[Hs [funs ->]]|[Hs (e & -> & He)]].
      * left. split; [by apply andb_True|]. by eexists.
      * right. split; [|by eexists].
        intros [_ H]%andb_True. by apply Hs.
    + right. split; [|by eexists].
      intros [H _]%andb_True. by apply Hf.
  - right. split; [by intros []|]. eexists. split; [reflexivity|by left].
Qed.

(** X3.  The analysis of a program succeeds exactly when every node has
    a known tag and, in every block and function body of the program, the
    direct declarations are pairwise different - also in branches and
    function bodies that a run would never reach.  When it fails, the
    error is the unknown-statement error or a multiple-declarations
    error. *)
Theorem analyze_accepts (s : stmt number) :
  ((∃ x, analyze s = Ok x) ↔ analyzable s) ∧
  (∀ e, analyze s = Err e →
        e = UnknownStatementType ∨ ∃ x, e = MultipleDeclarations x) ∧
  analyze s ≠ OutOfFuel.
Proof.
  destruct (analyze_cases s) as [[Hs [x Hx]]|[Hs (e & He & Hkind)]].
  - rewrite Hx. split; [|split]; [| |discriminate].
    + split; [done|]. by exists x.
    + discriminate.
  - rewrite He. split; [|split]; [| |discriminate].
    + split; [by intros [x [=]]|]. intros H. destruct (Hs H).
    + by intros e' [= <-].
Qed.

(** ** Initialising a name *)

Lemma first_index name (names : list string) :
  name ∈ names →
  ∃ i, names !! i = Some name ∧ ∀ j, j < i → names !! j ≠ Some name.
Proof.
  induction names as [|n names IH]; intros Hin; [inversion Hin|].
  destruct (decide (name = n)) as [->|Hne].
  - exists 0. split; [reflexivity|]. intros j Hj. lia.
  - apply elem_of_cons in Hin as [Heq|Hin]; [done|].
    destruct (IH Hin) as (i & Hi & Hfirst).
    exists (S i). split; [exact Hi|].
    intros [|j] Hj; simpl; [congruence|]. apply Hfirst. lia.
Qed.

Lemma set_scan_at name (val v0 : value number) flag :
  ∀ i names vals,
    names !! i = Some name →
    (∀ j, j < i → names !! j ≠ Some name) →
    vals !! i = Some (v0, flag) →
    set_scan name val names vals = Ok (<[i := (val, flag)]> vals).
Proof.
  induction i as [|i IH]; intros [|n names] [|slot vals] Hn Hfirst Hv;
    simpl in *; try discriminate.
  - injection Hn as ->. injection Hv as ->.
    by rewrite decide_True.
  - rewrite decide_False.
    + rewrite (IH names vals); [reflexivity|exact Hn| |exact Hv].
      intros j Hj. apply (Hfirst (S j)). lia.
    + intros ->. by apply (Hfirst 0); [lia|].
Qed.

Lemma set_scan_absent name (val : value number) :
  ∀ names vals,
    name ∉ names → length names ≤ length vals →
    set_scan name val names vals = Err InternalNameNotFound.
Proof.
  induction names as [|n names IH]; intros [|slot vals] Hnot Hlen;
    simpl in *; try reflexivity; try lia.
  apply not_elem_of_cons in Hnot as [Hne Hnot].
  rewrite decide_False by exact Hne.
  rewrite IH; [reflexivity|exact Hnot|lia].
Qed.

Lemma set_scan_other name (val : value number) other
    (enclosing : res (value number)) :
  other ≠ name →
  ∀ names vals vals',
    set_scan name val names vals = Ok vals' →
    lookup_scan other enclosing names vals' =
    lookup_scan other enclosing names vals.
Proof.
  intros Hne. induction names as [|n names IH]; intros vals vals' H;
    simpl in H; [discriminate|].
  destruct (decide (name = n)) as [<-|Hn]; destruct vals as [|slot vals];
    try discriminate.
  - injection H as <-. simpl.
    destruct (decide (other = name)); [done|reflexivity].
  - destruct (set_scan name val names vals) as [rest| |] eqn:Hrest;
      try discriminate.
    injection H as <-. simpl.
    destruct (decide (other = n)); [reflexivity|]. by apply IH.
Qed.

Lemma set_name_value_slot name (val : value number) l env h fr :
  h !! l = Some fr →
  well_formed_frame fr →
  name ∈ frame_names fr →
  ∃ h' fr', set_name_value name val (l :: env) h = Ok h' ∧
            length h' = length h ∧
            h' !! l = Some fr' ∧ slot_of name fr' val.
Proof.
  intros Hl Hwf Hin.
  destruct (first_index name _ Hin) as (i & Hi & Hfirst).
  assert (Hlt : i < length (frame_values fr)).
  { rewrite <- Hwf. by apply lookup_lt_Some with name. }
  destruct (lookup_lt_is_Some_2 _ _ Hlt) as [[v0 flag] Hv].
  unfold set_name_value. rewrite Hl.
  rewrite (set_scan_at name val v0 flag i _ _ Hi Hfirst Hv).
  eexists. eexists. split; [reflexivity|]. split; [apply length_insert|].
  split.
  - apply list_lookup_insert_eq. by apply lookup_lt_Some with fr.
  - exists i, flag. simpl. split; [exact Hi|]. split; [exact Hfirst|].
    by apply list_lookup_insert_eq.
Qed.

(** X4.  [set_name_value] followed by a lookup: for a name that the
    innermost frame has, the assignment succeeds without changing the
    size of the store, and the lookup of the name in the same environment
    then returns the assigned value. *)
Theorem set_then_lookup name (val : value number) l env h fr :
  h !! l = Some fr →
  well_formed_frame fr →
  name ∈ frame_names fr →
  ∃ h', set_name_value name val (l :: env) h = Ok h' ∧
        length h' = length h ∧
        (val ≠ VNoValueYet →
         lookup_name_value name (l :: env) h' = Ok val).
Proof.
  intros Hl Hwf Hin.
  destruct (set_name_value_slot name val l env h fr Hl Hwf Hin)
    as (h' & fr' & Hset & Hlen & Hl' & Hslot).
  exists h'. split; [exact Hset|]. split; [exact Hlen|].
  intros Hval. unfold lookup_name_value.
  rewrite (env_loop_innermost name _ l env fr' val Hl' Hslot).
  by destruct val.
Qed.

(** X5.  [set_name_value] for one name leaves the lookup of every other
    name as it was, in every environment. *)
Theorem set_keeps_other_names name (val : value number) env h h' other :
  set_name_value name val env h = Ok h' →
  other ≠ name →
  ∀ e, lookup_name_value other e h' = lookup_name_value other e h.
Proof.
  intros Hset Hne e. unfold set_name_value in Hset.
  destruct env as [|l env]; [discriminate|].
  destruct (h !! l) as [fr|] eqn:Hl; [|discriminate].
  destruct (set_scan _ _ _ _) as [vals| |] eqn:Hvals; try discriminate.
  injection Hset as <-. unfold lookup_name_value.
  induction e as [|l0 e IH]; [reflexivity|].
  cbn [env_loop]. rewrite IH.
  destruct (decide (l0 = l)) as [->|Hl0].
  - rewrite list_lookup_insert_eq by (by apply lookup_lt_Some with fr).
    rewrite Hl. simpl.
    by rewrite (set_scan_other name val other _ Hne _ _ _ Hvals).
  - by rewrite list_lookup_insert_ne.
Qed.

(** X6.  [set_name_value] looks at the innermost frame only: for a name
    that this frame does not have it fails with the internal error, also
    when an enclosing frame has the name. *)
Theorem set_only_innermost name (val : value number) l env h fr :
  h !! l = Some fr →
  well_formed_frame fr →
  name ∉ frame_names fr →
  set_name_value name val (l :: env) h = Err InternalNameNotFound.
Proof.
  intros Hl Hwf Hnot. unfold set_name_value. rewrite Hl.
  rewrite set_scan_absent; [reflexivity|exact Hnot|by rewrite Hwf].
Qed.

(** ** What a run does to the store *)

Lemma frames_kept_refl env (h : heap number) : frames_kept env h h.
Proof.
  split; [reflexivity|]. split; [done|]. split; [|done].
  intros l fr Hl. by exists fr.
Qed.

Lemma frames_kept_trans env (h h1 h2 : heap number) :
  frames_kept env h h1 → frames_kept env h1 h2 → frames_kept env h h2.
Proof.
  intros (Hlen1 & Hother1 & Hshape1 & Hwf1) (Hlen2 & Hother2 & Hshape2 & Hwf2).
  split; [lia|]. split; [|split].
  - intros l Hl Hhead. rewrite Hother2 by (done || lia). by apply Hother1.
  - intros l fr Hl.
    destruct (Hshape1 l fr Hl) as (fr1 & Hl1 & Hn1 & Hv1).
    destruct (Hshape2 l fr1 Hl1) as (fr2 & Hl2 & Hn2 & Hv2).
    exists fr2. split; [exact Hl2|]. split; congruence.
  - auto.
Qed.

Lemma frames_kept_any env (h h' : heap number) :
  frames_kept [] h h' → frames_kept env h h'.
Proof.
  intros (Hlen & Hother & Hshape & Hwf).
  split; [exact Hlen|]. split; [|by split].
  intros l Hl _. by apply Hother.
Qed.

Lemma frames_kept_set name (val : value number) env h h' :
  set_name_value name val env h = Ok h' → frames_kept env h h'.
Proof.
  intros Hset.
  assert (Hwf := λ H, proj1 (set_name_value_well_formed _ _ _ _ _ H Hset)).
  unfold set_name_value in Hset.
  destruct env as [|l env]; [discriminate|].
  destruct (h !! l) as [fr|] eqn:Hl; [|discriminate].
  destruct (set_scan _ _ _ _) as [vals| |] eqn:Hvals; try discriminate.
  injection Hset as <-.
  split; [by rewrite length_insert|]. split; [|split; [|exact Hwf]].
  - intros l0 _ Hhead. apply list_lookup_insert_ne.
    intros ->. by apply Hhead.
  - intros l0 fr0 Hl0. destruct (decide (l0 = l)) as [->|Hne].
    + rewrite list_lookup_insert_eq by (by apply lookup_lt_Some with fr).
      eexists. split; [reflexivity|]. simpl.
      rewrite Hl in Hl0. injection Hl0 as <-.
      split; [reflexivity|]. exact (set_scan_length _ _ _ _ _ Hvals).
    + exists fr0. by rewrite list_lookup_insert_ne.
Qed.

Lemma frames_kept_extend names (vals : list (value number)) env h env' h1 h' :
  extend_environment names vals env h = Ok (env', h1) →
  frames_kept env' h1 h' →
  frames_kept [] h h'.
Proof.
  intros Hext (Hlen & Hother & Hshape & Hwf).
  assert (Hwf1 := λ H,
            proj1 (extend_environment_well_formed _ _ _ _ _ _ H Hext)).
  unfold extend_environment in Hext.
  destruct (decide (length names = length vals));
    [|destruct (decide (length names < length vals)); discriminate].
  injection Hext as <- <-. rewrite length_app in Hlen. simpl in Hlen.
  split; [lia|]. split; [|split; [|auto]].
  - intros l Hl _. rewrite Hother.
    + by apply lookup_app_l.
    + rewrite length_app. simpl. lia.
    + simpl. intros [= Heq]. lia.
  - intros l fr Hl. apply Hshape.
    rewrite lookup_app_l; [exact Hl|]. by apply lookup_lt_Some with fr.
Qed.

Section FramesKept.
Variable execute :
  value number → list (value number) → heap number →
  res (value number * heap number).

Hypothesis execute_frames : ∀ f args h v h',
  execute f args h = Ok (v, h') → frames_kept [] h h'.

Lemma exec_frames x : ∀ env h v h',
  exec execute x env h = Ok (v, h') → frames_kept env h h'.
Proof.
  induction x as [l|name|name vfun IHv|p c a IHp IHc IHa
                 |vars locals body _| |f1 f2 IH1 IH2|locals body IHb
                 |r IHr|f args IHf IHargs] using exe_nested_ind;
    intros env h v h' Hrun; simpl in Hrun.
  - injection Hrun as _ <-. apply frames_kept_refl.
  - destruct (lookup_name_value name env h); try discriminate.
    injection Hrun as _ <-. apply frames_kept_refl.
  - destruct (exec execute vfun env h) as [[w h1]| |] eqn:Hw;
      try discriminate.
    destruct (set_name_value name w env h1) as [h2| |] eqn:Hset;
      try discriminate.
    injection Hrun as _ <-.
    apply frames_kept_trans with h1; [by apply IHv with w|].
    by apply frames_kept_set with name w.
  - destruct (exec execute p env h) as [[w h1]| |] eqn:Hw;
      try discriminate.
    apply frames_kept_trans with h1; [by apply IHp with w|].
    destruct (is_true w); [by apply IHc with v|by apply IHa with v].
  - injection Hrun as _ <-. apply frames_kept_refl.
  - injection Hrun as _ <-. apply frames_kept_refl.
  - destruct (exec execute f1 env h) as [[w h1]| |] eqn:Hw;
      try discriminate.
    destruct (is_return_value w).
    + injection Hrun as _ <-. by apply IH1 with w.
    + apply frames_kept_trans with h1; [by apply IH1 with w|].
      by apply IH2 with v.
  - destruct (extend_environment _ _ _ _) as [[env1 h1]| |] eqn:Hext;
      try discriminate.
    apply frames_kept_any.
    apply (frames_kept_extend _ _ _ _ _ _ _ Hext).
    by apply IHb with v.
  - destruct (exec execute r env h) as [[w h1]| |] eqn:Hw;
      try discriminate.
    injection Hrun as _ <-. by apply IHr with w.
  - destruct (exec execute f env h) as [[w h1]| |] eqn:Hw;
      try discriminate.
    destruct (map_exec _ args h1) as [[vs h2]| |] eqn:Hvs;
      try discriminate.
    apply frames_kept_trans with h1; [by apply IHf with w|].
    apply frames_kept_trans with h2.
    + clear Hrun Hw. revert h1 vs h2 Hvs.
      induction IHargs as [|a args IHa _ IH]; intros h1 vs h2 Hvs;
        simpl in Hvs.
      * injection Hvs as _ <-. apply frames_kept_refl.
      * destruct (exec execute a env h1) as [[y h1']| |] eqn:Hy;
          try discriminate.
        destruct (map_exec _ args h1') as [[ys h2']| |] eqn:Hys;
          try discriminate.
        injection Hvs as _ <-.
        apply frames_kept_trans with h1'; [by apply IHa with y|].
        by apply IH with ys.
    + apply frames_kept_any. by apply execute_frames with w vs v.
Qed.
End FramesKept.

Lemma execute_application_frames fuel : ∀ f args (h : heap number) v h',
  apply_compound fuel f args h = Ok (v, h') → frames_kept [] h h'.
Proof.
  induction fuel as [|fuel IH]; intros f args h v h' Hrun;
    destruct f as [| | | | |impl|parameters locals body env|];
    try discriminate; rewrite ?execute_application_unfold in Hrun.
  - simpl in Hrun.
    destruct (apply_primitive_function host impl args); try discriminate.
    injection Hrun as _ <-. apply frames_kept_refl.
  - destruct (insert_all _ _) as [names| |]; try discriminate.
    destruct (extend_environment _ _ _ _) as [[env1 h1]| |]; discriminate.
  - simpl in Hrun.
    destruct (apply_primitive_function host impl args); try discriminate.
    injection Hrun as _ <-. apply frames_kept_refl.
  - destruct (insert_all _ _) as [names| |]; try discriminate.
    destruct (extend_environment _ _ _ _) as [[env1 h1]| |] eqn:Hext;
      try discriminate.
    destruct (run host fuel body env1 h1) as [[result h2]| |] eqn:Hbody;
      try discriminate.
    assert (h' = h2) as ->.
    { destruct (is_return_value result); [|by injection Hrun].
      destruct (return_value_content result); try discriminate.
      by injection Hrun. }
    apply (frames_kept_extend _ _ _ _ _ _ _ Hext).
    by apply (exec_frames _ IH body env1 h1 result).
Qed.

Lemma run_frames fuel x env (h : heap number) v h' :
  run host fuel x env h = Ok (v, h') → frames_kept env h h'.
Proof. apply exec_frames, execute_application_frames. Qed.

(** A lookup reads the frames of its environment only. *)
Lemma env_loop_same_frames name (h h' : heap number) e :
  (∀ l, l ∈ e → h' !! l = h !! l) →
  env_loop name h' e = env_loop name h e.
Proof.
  induction e as [|l e IH]; intros Hsame; [reflexivity|].
  cbn [env_loop]. rewrite Hsame by left.
  rewrite IH; [reflexivity|]. intros l' Hl'. apply Hsame. by right.
Qed.

(** X7.  A call changes no frame that was there before it: the store
    only grows, every frame allocated before the call is the same after
    it, and so is every lookup in an environment made of such frames. *)
Theorem call_keeps_frames fuel f args (h : heap number) v h' :
  apply_compound fuel f args h = Ok (v, h') →
  length h ≤ length h' ∧
  (∀ l, l < length h → h' !! l = h !! l) ∧
  (∀ name e,
     Forall (λ l, l < length h) e →
     lookup_name_value name e h' = lookup_name_value name e h).
Proof.
  intros Hrun.
  destruct (execute_application_frames _ _ _ _ _ _ Hrun)
    as (Hlen & Hother & _).
  split; [exact Hlen|].
  assert (Hsame : ∀ l, l < length h → h' !! l = h !! l)
    by (intros l Hl; by apply Hother).
  split; [exact Hsame|].
  intros name e He. apply env_loop_same_frames.
  intros l Hl. apply Hsame. by apply (proj1 (Forall_forall _ _) He).
Qed.

(** X8.  Running an execution function in an environment writes to the
    innermost frame of that environment at most: every other frame that
    was there before the run is the same after it, and every frame keeps
    its names. *)
Theorem run_keeps_frames fuel x env (h : heap number) v h' :
  run host fuel x env h = Ok (v, h') →
  length h ≤ length h' ∧
  (∀ l, l < length h → head env ≠ Some l → h' !! l = h !! l) ∧
  (∀ l fr, h !! l = Some fr →
           ∃ fr', h' !! l = Some fr' ∧ frame_names fr' = frame_names fr).
Proof.
  intros Hrun.
  destruct (run_frames _ _ _ _ _ _ Hrun) as (Hlen & Hother & Hshape & _).
  split; [exact Hlen|]. split; [exact Hother|].
  intros l fr Hl. destruct (Hshape l fr Hl) as (fr' & Hl' & Hn & _).
  by exists fr'.
Qed.

(** X9.  A block leaves the bindings around it as they were: after the
    block, every lookup in the environment in which the block was
    executed gives what it gave before. *)
Theorem block_keeps_outer_bindings fuel locals body env (h : heap number) v h' :
  run host fuel (XBlock locals body) env h = Ok (v, h') →
  Forall (λ l, l < length h) env →
  ∀ name, lookup_name_value name env h' = lookup_name_value name env h.
Proof.
  intros Hrun Henv name. unfold run in Hrun. simpl in Hrun.
  destruct (extend_environment _ _ _ _) as [[env1 h1]| |] eqn:Hext;
    try discriminate.
  apply (exec_frames _ (execute_application_frames fuel)) in Hrun.
  destruct (frames_kept_extend _ _ _ _ _ _ _ Hext Hrun) as (_ & Hother & _).
  apply env_loop_same_frames.
  intros l Hl. apply Hother; [|done].
  by apply (proj1 (Forall_forall _ _) Henv).
Qed.

Lemma global_heap_well_formed :
  Forall well_formed_frame (the_global_heap math_PI).
Proof. constructor; [reflexivity|constructor]. Qed.

(** X10.  Frames keep one slot per name: a run that starts from a store
    of such frames ends in one, and so does every top-level
    evaluation. *)
Theorem frames_stay_well_formed fuel :
  (∀ x env (h : heap number) v h',
     Forall well_formed_frame h →
     run host fuel x env h = Ok (v, h') →
     Forall well_formed_frame h') ∧
  (∀ s v h,
     eval_toplevel math_PI host fuel s = Ok (v, h) →
     Forall well_formed_frame h).
Proof.
  split.
  - intros x env h v h' Hwf Hrun.
    by apply (run_frames _ _ _ _ _ _ Hrun).
  - intros s v h H. unfold eval_toplevel, evaluate in H.
    destruct (analyze (make_block s)) as [x| |]; try discriminate.
    destruct (run host fuel x _ _) as [[w h1]| |] eqn:Hrun;
      try discriminate.
    destruct (is_return_value w); [discriminate|]. injection H as _ <-.
    apply (run_frames _ _ _ _ _ _ Hrun), global_heap_well_formed.
Qed.

(** X11.  A constant declaration, executed in an environment whose
    innermost frame has the name: once the right-hand side has given a
    value, the declaration gives [undefined], and the name then looks up
    to that value in the same environment. *)
Theorem declaration_then_use fuel name vfun l e (h : heap number) fr v h1 :
  h !! l = Some fr →
  well_formed_frame fr →
  name ∈ frame_names fr →
  run host fuel vfun (l :: e) h = Ok (v, h1) →
  v ≠ VNoValueYet →
  ∃ h2, run host fuel (XConst name vfun) (l :: e) h = Ok (VUndefined, h2) ∧
        lookup_name_value name (l :: e) h2 = Ok v.
Proof.
  intros Hl Hwf Hin Hrun Hv.
  destruct (run_frames _ _ _ _ _ _ Hrun) as (_ & _ & Hshape & _).
  destruct (Hshape l fr Hl) as (fr1 & Hl1 & Hn1 & Hv1).
  destruct (set_name_value_slot name v l e h1 fr1 Hl1)
    as (h2 & fr2 & Hset & _ & Hl2 & Hslot).
  - unfold well_formed_frame in *. congruence.
  - by rewrite Hn1.
  - exists h2. split.
    + unfold run in *. cbn [exec]. by rewrite Hrun, Hset.
    + unfold lookup_name_value.
      rewrite (env_loop_innermost name _ l e fr2 v Hl2 Hslot).
      by destruct v.
Qed.

(** ** The frame of a call and of a block *)

Lemma lookup_map {A B : Type} (f : A → B) (l : list A) i :
  map f l !! i = f <$> (l !! i).
Proof.
  revert i. induction l as [|x l IH]; intros [|i]; simpl; try reflexivity.
  apply IH.
Qed.

Lemma lookup_scan_app name (enclosing : res (value number)) ls lvals :
  ∀ ps avals,
    length ps = length avals → name ∉ ps →
    lookup_scan name enclosing (ps ++ ls) (avals ++ lvals) =
    lookup_scan name enclosing ls lvals.
Proof.
  induction ps as [|p ps IH]; intros [|a avals] Hlen Hnot;
    simpl in *; try reflexivity; try discriminate.
  apply not_elem_of_cons in Hnot as [Hne Hnot].
  rewrite decide_False by exact Hne.
  apply IH; [by injection Hlen|exact Hnot].
Qed.

Lemma lookup_scan_sentinels name (enclosing : res (value number)) flag ls :
  name ∈ ls →
  lookup_scan name enclosing ls
    (map (λ x, (x, flag)) (map (λ _, no_value_yet) ls)) =
  Ok VNoValueYet.
Proof.
  induction ls as [|n ls IH]; intros Hin; [inversion Hin|].
  simpl. destruct (decide (name = n)) as [|Hne]; [reflexivity|].
  apply elem_of_cons in Hin as [Heq|Hin]; [done|]. by apply IH.
Qed.

Lemma map_exec_app {A B : Type}
    (f : A → heap number → res (B * heap number)) pre : ∀ post h,
  map_exec f (pre ++ post) h =
  perform (vs, h1) <~ map_exec f pre h ;;
  perform (ws, h2) <~ map_exec f post h1 ;;
  Ok (vs ++ ws, h2).
Proof.
  induction pre as [|x pre IH]; intros post h; simpl.
  - by destruct (map_exec f post h) as [[ws h2]| |].
  - destruct (f x h) as [[y h1]| |]; try reflexivity.
    rewrite IH.
    destruct (map_exec f pre h1) as [[vs h2]| |]; try reflexivity.
    by destruct (map_exec f post h2) as [[ws h3]| |].
Qed.

(** *** Slots that stay as they are *)

Lemma set_scan_slot_other n (val : value number) name :
  name ≠ n →
  ∀ names vals vals' i slot,
    set_scan n val names vals = Ok vals' →
    names !! i = Some name →
    vals !! i = Some slot →
    vals' !! i = Some slot.
Proof.
  intros Hne. induction names as [|n0 names IH];
    intros vals vals' i slot H Hi Hv; simpl in H; [discriminate|].
  destruct (decide (n = n0)) as [<-|Hn]; destruct vals as [|s0 vals];
    try discriminate.
  - injection H as <-. destruct i as [|i]; simpl in *; [congruence|exact Hv].
  - destruct (set_scan n val names vals) as [rest| |] eqn:Hrest;
      try discriminate.
    injection H as <-. destruct i as [|i]; simpl in *; [exact Hv|].
    by apply (IH vals rest i slot).
Qed.

Lemma set_name_value_keeps_slot n (val : value number) name env h h' l fr w :
  name ≠ n →
  set_name_value n val env h = Ok h' →
  h !! l = Some fr →
  slot_of name fr w →
  ∃ fr', h' !! l = Some fr' ∧ slot_of name fr' w.
Proof.
  intros Hne Hset Hl Hslot. unfold set_name_value in Hset.
  destruct env as [|l0 env]; [discriminate|].
  destruct (h !! l0) as [fr0|] eqn:Hl0; [|discriminate].
  destruct (set_scan _ _ _ _) as [vals| |] eqn:Hvals; try discriminate.
  injection Hset as <-.
  destruct (decide (l = l0)) as [->|Hl'].
  - rewrite Hl0 in Hl. injection Hl as ->.
    rewrite list_lookup_insert_eq by (by apply lookup_lt_Some with fr).
    eexists. split; [reflexivity|].
    destruct Hslot as (i & flag & Hi & Hfirst & Hv).
    exists i, flag. simpl. split; [exact Hi|]. split; [exact Hfirst|].
    by apply (set_scan_slot_other n val name Hne _ _ _ _ _ Hvals Hi).
  - exists fr. split; [|exact Hslot].
    rewrite list_lookup_insert_ne; [exact Hl|]. by intros ->.
Qed.

Lemma frames_kept_lookup (h h' : heap number) l fr :
  frames_kept [] h h' → h !! l = Some fr → h' !! l = Some fr.
Proof.
  intros (_ & Hother & _) Hl. rewrite Hother; [exact Hl| |done].
  by apply lookup_lt_Some with fr.
Qed.

Section KeepsSlot.
Variable execute :
  value number → list (value number) → heap number →
  res (value number * heap number).

Hypothesis execute_frames : ∀ f args h v h',
  execute f args h = Ok (v, h') → frames_kept [] h h'.

Variable name : string.

(** Without a declaration of [name] outside nested blocks, a run leaves
    the slot of [name] in every frame as it was. *)
Lemma exec_keeps_slot x : ∀ env h v h' l fr w,
  no_declaration name x →
  exec execute x env h = Ok (v, h') →
  h !! l = Some fr →
  slot_of name fr w →
  ∃ fr', h' !! l = Some fr' ∧ slot_of name fr' w.
Proof.
  induction x as [lit|n|n vfun IHv|p c a IHp IHc IHa
                 |vars locals body _| |f1 f2 IH1 IH2|locals body _
                 |r IHr|f args IHf IHargs] using exe_nested_ind;
    intros env h v h' l fr w Hno Hrun Hl Hslot; simpl in Hno, Hrun.
  - injection Hrun as _ <-. by exists fr.
  - destruct (lookup_name_value n env h); try discriminate.
    injection Hrun as _ <-. by exists fr.
  - apply andb_True in Hno as [Hn Hno]. apply bool_decide_unpack in Hn.
    destruct (exec execute vfun env h) as [[val h1]| |] eqn:Hval;
      try discriminate.
    destruct (set_name_value n val env h1) as [h2| |] eqn:Hset;
      try discriminate.
    injection Hrun as _ <-.
    destruct (IHv _ _ _ _ _ _ _ Hno Hval Hl Hslot) as (fr1 & Hl1 & Hslot1).
    apply (set_name_value_keeps_slot n val name env h1 h2 l fr1 w);
      [by intros ->|exact Hset|exact Hl1|exact Hslot1].
  - apply andb_True in Hno as [Hno Hnoa].
    apply andb_True in Hno as [Hnop Hnoc].
    destruct (exec execute p env h) as [[pv h1]| |] eqn:Hp;
      try discriminate.
    destruct (IHp _ _ _ _ _ _ _ Hnop Hp Hl Hslot) as (fr1 & Hl1 & Hslot1).
    destruct (is_true pv).
    + by apply (IHc _ _ _ _ _ _ _ Hnoc Hrun Hl1 Hslot1).
    + by apply (IHa _ _ _ _ _ _ _ Hnoa Hrun Hl1 Hslot1).
  - injection Hrun as _ <-. by exists fr.
  - injection Hrun as _ <-. by exists fr.
  - apply andb_True in Hno as [Hno1 Hno2].
    destruct (exec execute f1 env h) as [[w1 h1]| |] eqn:Hw;
      try discriminate.
    destruct (IH1 _ _ _ _ _ _ _ Hno1 Hw Hl Hslot) as (fr1 & Hl1 & Hslot1).
    destruct (is_return_value w1).
    + injection Hrun as _ <-. by exists fr1.
    + by apply (IH2 _ _ _ _ _ _ _ Hno2 Hrun Hl1 Hslot1).
  - destruct (extend_environment _ _ _ _) as [[env1 h1]| |] eqn:Hext;
      try discriminate.
    apply (exec_frames _ execute_frames) in Hrun.
    exists fr. split; [|exact Hslot].
    by apply (frames_kept_lookup h h' l fr
                (frames_kept_extend _ _ _ _ _ _ _ Hext Hrun)).
  - destruct (exec execute r env h) as [[w1 h1]| |] eqn:Hw;
      try discriminate.
    injection Hrun as _ <-. by apply (IHr _ _ _ _ _ _ _ Hno Hw Hl Hslot).
  - apply andb_True in Hno as [Hnof Hnoargs].
    destruct (exec execute f env h) as [[fv h1]| |] eqn:Hf;
      try discriminate.
    destruct (IHf _ _ _ _ _ _ _ Hnof Hf Hl Hslot) as (fr1 & Hl1 & Hslot1).
    destruct (map_exec _ args h1) as [[vs h2]| |] eqn:Hvs;
      try discriminate.
    assert (Hargs : ∃ fr2, h2 !! l = Some fr2 ∧ slot_of name fr2 w).
    { clear Hrun Hf. apply forallb_True in Hnoargs.
      revert h1 vs h2 fr1 Hl1 Hslot1 Hvs.
      induction IHargs as [|a args IHa _ IH];
        intros h1 vs h2 fr1 Hl1 Hslot1 Hvs; simpl in Hvs.
      - injection Hvs as _ <-. by exists fr1.
      - apply Forall_cons in Hnoargs as [Hnoa Hnoargs].
        destruct (exec execute a env h1) as [[y h1']| |] eqn:Hy;
          try discriminate.
        destruct (map_exec _ args h1') as [[ys h2']| |] eqn:Hys;
          try discriminate.
        injection Hvs as _ <-.
        destruct (IHa _ _ _ _ _ _ _ Hnoa Hy Hl1 Hslot1)
          as (fr1' & Hl1' & Hslot1').
        by apply (IH Hnoargs h1' ys h2' fr1'). }
    destruct Hargs as (fr2 & Hl2 & Hslot2).
    exists fr2. split; [|exact Hslot2].
    by apply (frames_kept_lookup h2 h' l fr2 (execute_frames _ _ _ _ _ Hrun)).
Qed.
End KeepsSlot.

Lemma run_keeps_slot name fuel x env (h : heap number) v h' l fr w :
  no_declaration name x →
  run host fuel x env h = Ok (v, h') →
  h !! l = Some fr →
  slot_of name fr w →
  ∃ fr', h' !! l = Some fr' ∧ slot_of name fr' w.
Proof. apply exec_keeps_slot, execute_application_frames. Qed.

(** *** Names that are declared and not yet initialised *)

Lemma lacks_kept name env (h h' : heap number) l :
  frames_kept env h h' → lacks name h l → lacks name h' l.
Proof.
  intros (_ & _ & Hshape & _) (fr & Hl & Hwf & Hnot).
  destruct (Hshape l fr Hl) as (fr' & Hl' & Hn & Hv).
  exists fr'. split; [exact Hl'|].
  unfold well_formed_frame in *. rewrite Hn. split; [congruence|exact Hnot].
Qed.

Lemma uninitialised_lookup name env (h : heap number) :
  uninitialised name env h →
  lookup_name_value name env h = Err (NameUsedBeforeDeclaration name).
Proof.
  intros (inner & l & outer & fr & -> & Hinner & Hl & Hslot).
  unfold lookup_name_value.
  induction Hinner as [|l' inner (fr' & Hl' & Hwf & Hnot) _ IH].
  - cbn [app]. by rewrite (env_loop_innermost name h l outer fr _ Hl Hslot).
  - rewrite <- app_comm_cons.
    by rewrite (env_loop_enclosing name h l' _ fr' Hl' Hnot Hwf).
Qed.

Lemma uninitialised_kept name fuel x env (h : heap number) v h' :
  uninitialised name env h →
  no_declaration name x →
  run host fuel x env h = Ok (v, h') →
  uninitialised name env h'.
Proof.
  intros (inner & l & outer & fr & -> & Hinner & Hl & Hslot) Hno Hrun.
  destruct (run_keeps_slot name _ _ _ _ _ _ l fr _ Hno Hrun Hl Hslot)
    as (fr' & Hl' & Hslot').
  exists inner, l, outer, fr'. split; [reflexivity|].
  split; [|by split].
  apply (Forall_impl _ _ _ Hinner). intros l0.
  apply lacks_kept with (inner ++ l :: outer).
  by apply run_frames with fuel x v.
Qed.

Lemma uninitialised_kept_operands name fuel env before :
  Forall (λ a, no_declaration name a) before →
  ∀ (h : heap number) args h',
    uninitialised name env h →
    map_exec (λ a h', run host fuel a env h') before h = Ok (args, h') →
    uninitialised name env h'.
Proof.
  induction 1 as [|a before Ha _ IH]; intros h args h' Hun Hrun;
    simpl in Hrun.
  - by injection Hrun as _ <-.
  - destruct (run host fuel a env h) as [[y h1]| |] eqn:Hy;
      try discriminate.
    destruct (map_exec _ before h1) as [[ys h2]| |] eqn:Hys;
      try discriminate.
    injection Hrun as _ <-.
    apply (IH h1 ys h2); [|exact Hys].
    by apply (uninitialised_kept name fuel a env h y h1).
Qed.

Lemma slot_of_sentinels name (locals : list string) :
  name ∈ locals →
  slot_of (number:=number) name
    (make_frame locals (map (λ _, (VNoValueYet, false)) locals))
    VNoValueYet.
Proof.
  intros Hin. destruct (first_index name locals Hin) as (i & Hi & Hfirst).
  exists i, false. simpl. split; [exact Hi|]. split; [exact Hfirst|].
  by rewrite lookup_map, Hi.
Qed.

Lemma slot_of_after name (ps ls : list string)
    (avals lvals : list (value number * bool)) w :
  length ps = length avals → name ∉ ps →
  slot_of name (make_frame ls lvals) w →
  slot_of name (make_frame (ps ++ ls) (avals ++ lvals)) w.
Proof.
  intros Hlen Hnot (i & flag & Hi & Hfirst & Hv). simpl in *.
  exists (length ps + i), flag. simpl. split; [|split].
  - rewrite lookup_app_r by lia.
    by replace (length ps + i - length ps) with i by lia.
  - intros j Hj. destruct (decide (j < length ps)) as [Hlt|Hge].
    + rewrite lookup_app_l by exact Hlt. intros Hj'.
      apply Hnot. by apply list_elem_of_lookup_2 with j.
    + rewrite lookup_app_r by lia. apply Hfirst. lia.
  - rewrite lookup_app_r by lia.
    by replace (length ps + i - length avals) with i by lia.
Qed.

(** Entering a block or a call: the new frame has [name] with the
    sentinel, or it does not have [name] and the state of [name] is that
    of the environment around. *)
Lemma uninitialised_block name locals env (h : heap number) :
  name ∈ locals ∨ uninitialised name env h →
  uninitialised name (length h :: env)
    (h ++ [make_frame locals (map (λ _, (VNoValueYet, false)) locals)]).
Proof.
  intros Hcase.
  destruct (decide (name ∈ locals)) as [Hin|Hnot].
  - exists [], (length h), env. eexists. split; [reflexivity|].
    split; [constructor|]. split.
    + by rewrite lookup_app_r, Nat.sub_diag.
    + by apply slot_of_sentinels.
  - destruct Hcase as [Hin|(inner & l & outer & fr & -> & Hinner & Hl & Hslot)];
      [done|].
    exists (length h :: inner), l, outer, fr.
    split; [reflexivity|]. split; [|split; [|exact Hslot]].
    + constructor.
      * eexists. split; [by rewrite lookup_app_r, Nat.sub_diag|].
        split; [|exact Hnot].
        unfold well_formed_frame. simpl. by rewrite length_map.
      * apply (Forall_impl _ _ _ Hinner).
        intros l0 (fr0 & Hl0 & Hwf0 & Hnot0). exists fr0.
        split; [by apply lookup_app_l_Some|by split].
    + by apply lookup_app_l_Some.
Qed.

Lemma uninitialised_call name parameters locals args env (h : heap number) :
  length args = length parameters →
  name ∈ locals → name ∉ parameters →
  uninitialised name (length h :: env)
    (h ++ [make_frame (parameters ++ locals)
             (map (λ x, (x, false))
                (args ++ map (λ _, no_value_yet) locals))]).
Proof.
  intros Hlen Hin Hnot.
  exists [], (length h), env. eexists. split; [reflexivity|].
  split; [constructor|]. split.
  - by rewrite lookup_app_r, Nat.sub_diag.
  - rewrite map_app, map_map. apply slot_of_after.
    + by rewrite length_map.
    + exact Hnot.
    + by apply slot_of_sentinels.
Qed.

(** A run that comes to a read of a name that is not yet initialised
    fails there. *)
Lemma reaches_read_fails name fuel x env (h : heap number) :
  reaches_read host name fuel x env h →
  uninitialised name env h →
  run host fuel x env h = Err (NameUsedBeforeDeclaration name).
Proof.
  induction 1 as [env h|n vfun env h _ IH|p c a env h _ IH
                 |p c a env h pv h1 Hno Hp _ IH|f1 f2 env h _ IH
                 |f1 f2 env h w h1 Hno Hw Hret _ IH
                 |locals body env h _ IH|r env h _ IH
                 |f args env h _ IH
                 |f before a after env h fv h0 args h1 Hnof Hf Hnob Hb _ IH];
    intros Hun; unfold run in *; cbn [exec].
  - by rewrite (uninitialised_lookup name env h Hun).
  - by rewrite (IH Hun).
  - by rewrite (IH Hun).
  - rewrite Hp.
    assert (Hun1 := uninitialised_kept name fuel p env h pv h1 Hun Hno Hp).
    destruct (is_true pv); by apply IH.
  - by rewrite (IH Hun).
  - rewrite Hw, Hret. apply IH.
    by apply (uninitialised_kept name fuel f1 env h w h1).
  - rewrite extend_environment_block. apply IH.
    apply uninitialised_block. by right.
  - by rewrite (IH Hun).
  - by rewrite (IH Hun).
  - rewrite Hf, map_exec_app, Hb. cbn [map_exec].
    rewrite IH; [reflexivity|].
    apply (uninitialised_kept_operands name fuel env before Hnob h0 args h1);
      [|exact Hb].
    by apply (uninitialised_kept name fuel f env h fv h0).
Qed.

(** X12.  A name that is declared but not yet initialised stays so while
    statements run that do not declare it, and a run that then comes to a
    read of the name - as a statement, or inside a declaration, a return
    statement, a conditional, an application or a nested block - fails
    with the name-used-before-declaration error.  The local names of a
    block start out this way in the frame of the block, and the local
    names of a function that are not parameters in the frame of a call,
    whatever the enclosing environment binds; so a block body or function
    body that comes to a read of such a name before its declaration fails
    with that error. *)
Theorem forward_reference name :
  (∀ parameters locals args env (h : heap number),
     length args = length parameters →
     name ∈ locals → name ∉ parameters →
     lookup_name_value name (length h :: env)
       (h ++ [make_frame (parameters ++ locals)
                (map (λ x, (x, false))
                   (args ++ map (λ _, no_value_yet) locals))]) =
     Err (NameUsedBeforeDeclaration name)) ∧
  (∀ fuel x env (h : heap number) v h',
     uninitialised name env h →
     no_declaration name x →
     run host fuel x env h = Ok (v, h') →
     uninitialised name env h') ∧
  (∀ fuel x env (h : heap number),
     uninitialised name env h →
     reaches_read host name fuel x env h →
     run host fuel x env h = Err (NameUsedBeforeDeclaration name)) ∧
  (∀ fuel locals body env (h : heap number),
     name ∈ locals →
     reaches_read host name fuel body (length h :: env)
       (h ++ [make_frame locals (map (λ _, (VNoValueYet, false)) locals)]) →
     run host fuel (XBlock locals body) env h =
     Err (NameUsedBeforeDeclaration name)) ∧
  (∀ fuel parameters locals body env args (h : heap number),
     length args = length parameters →
     (∀ p, p ∈ parameters → p ∉ locals) →
     name ∈ locals → name ∉ parameters →
     reaches_read host name fuel body (length h :: env)
       (h ++ [make_frame (parameters ++ locals)
                (map (λ x, (x, false))
                   (args ++ map (λ _, no_value_yet) locals))]) →
     apply_compound (S fuel) (VCompound parameters locals body env) args h =
     Err (NameUsedBeforeDeclaration name)).
Proof.
  split; [|split; [|split; [|split]]].
  - intros parameters locals args env h Hlen Hin Hnot.
    apply uninitialised_lookup. by apply uninitialised_call.
  - intros fuel x env h v h'. apply uninitialised_kept.
  - intros fuel x env h Hun Hreach. by apply reaches_read_fails.
  - intros fuel locals body env h Hin Hreach.
    unfold run. cbn [exec]. rewrite extend_environment_block.
    apply (reaches_read_fails name fuel body _ _ Hreach).
    apply uninitialised_block. by left.
  - intros fuel parameters locals body env args h Hlen Hdisj Hin Hnot Hreach.
    rewrite (execute_application_compound host fuel parameters locals body
               env args h (parameters ++ locals));
      [|by apply insert_all_disjoint|exact Hlen].
    rewrite (reaches_read_fails name fuel body _ _ Hreach); [reflexivity|].
    by apply uninitialised_call.
Qed.

(** X13.  In the frame of a call, a parameter looks up to the argument
    at its position - at its first position, when the name stands more
    than once among the parameters. *)
Theorem parameter_lookup name parameters locals args env (h : heap number) i v :
  parameters !! i = Some name →
  (∀ j, j < i → parameters !! j ≠ Some name) →
  args !! i = Some v →
  v ≠ VNoValueYet →
  lookup_name_value name (length h :: env)
    (h ++ [make_frame (parameters ++ locals)
             (map (λ x, (x, false))
                (args ++ map (λ _, no_value_yet) locals))]) =
  Ok v.
Proof.
  intros Hi Hfirst Hv Hne. unfold lookup_name_value.
  rewrite (env_loop_innermost name _ (length h) env
             (make_frame (parameters ++ locals)
                (map (λ x, (x, false))
                   (args ++ map (λ _, no_value_yet) locals))) v).
  - by destruct v.
  - by rewrite lookup_app_r, Nat.sub_diag.
  - exists i, false. simpl. split; [|split].
    + by apply lookup_app_l_Some.
    + intros j Hj. rewrite lookup_app_l; [by apply Hfirst|].
      apply lookup_lt_Some in Hi. lia.
    + rewrite lookup_map, (lookup_app_l_Some _ _ _ _ Hv). reflexivity.
Qed.

(** ** The global environment *)

(** X14.  The global environment binds every name of the table of
    primitive functions to its primitive function, [undefined] and
    [math_PI] to their constants, and no other name. *)
Theorem global_environment_bindings :
  (∀ name impl,
     (name, impl) ∈ primitive_functions →
     lookup_name_value name (the_global_environment math_PI)
       (the_global_heap math_PI) = Ok (VPrimitive impl)) ∧
  lookup_name_value "undefined" (the_global_environment math_PI)
    (the_global_heap math_PI) = Ok VUndefined ∧
  lookup_name_value "math_PI" (the_global_environment math_PI)
    (the_global_heap math_PI) = Ok (VNumber math_PI) ∧
  (∀ name,
     name ∉ map fst primitive_functions ++
            map fst (primitive_constants math_PI) →
     lookup_name_value name (the_global_environment math_PI)
       (the_global_heap math_PI) = Err (UnboundName name)).
Proof.
  split; [|split; [reflexivity|split; [reflexivity|]]].
  - intros name impl Hin. unfold primitive_functions in Hin.
    repeat (apply elem_of_cons in Hin as [[= -> ->]|Hin]; [reflexivity|]).
    inversion Hin.
  - intros name Hnot. unfold lookup_name_value.
    exact (env_loop_enclosing name (the_global_heap math_PI) 0 [] _
             eq_refl Hnot eq_refl).
Qed.

(** ** Applications *)

(** X15.  An application evaluates the operator first and then the
    operands from left to right, each on the store left by the one
    before, and stops at the first error: an error of the operator, or of
    an operand after the operands before it have given values, is the
    error of the application, and the function is not applied. *)
Theorem application_error_order fuel function_func env (h : heap number) :
  (∀ arg_funcs e,
     run host fuel function_func env h = Err e →
     run host fuel (XApp function_func arg_funcs) env h = Err e) ∧
  (∀ f h0 pre vs h1 a post e,
     run host fuel function_func env h = Ok (f, h0) →
     map_exec (λ a h', run host fuel a env h') pre h0 = Ok (vs, h1) →
     run host fuel a env h1 = Err e →
     run host fuel (XApp function_func (pre ++ a :: post)) env h = Err e).
Proof.
  split.
  - intros arg_funcs e Hf. unfold run in *. cbn [exec]. by rewrite Hf.
  - intros f h0 pre vs h1 a post e Hf Hpre Ha.
    unfold run in *. cbn [exec]. rewrite Hf, map_exec_app, Hpre.
    cbn [map_exec]. by rewrite Ha.
Qed.

(** X16.  Applying a value that is neither a primitive nor a compound
    function is the unknown-function-type error, whatever the fuel; in an
    application it is raised once the operator and all operands have been
    evaluated. *)
Theorem apply_non_function f :
  (∀ impl, f ≠ VPrimitive impl) →
  (∀ parameters locals body env, f ≠ VCompound parameters locals body env) →
  (∀ fuel args (h : heap number),
     apply_compound fuel f args h = Err UnknownFunctionType) ∧
  (∀ fuel function_func arg_funcs env (h : heap number) h1 args h2,
     run host fuel function_func env h = Ok (f, h1) →
     map_exec (λ a h', run host fuel a env h') arg_funcs h1 = Ok (args, h2) →
     run host fuel (XApp function_func arg_funcs) env h =
     Err UnknownFunctionType).
Proof.
  intros Hprim Hcomp.
  assert (Happly : ∀ fuel args (h : heap number),
            apply_compound fuel f args h = Err UnknownFunctionType).
  { intros fuel args h.
    destruct f as [| | | | |impl|parameters locals body env|];
      try (by destruct fuel).
    - by destruct (Hprim impl).
    - by destruct (Hcomp parameters locals body env). }
  split; [exact Happly|].
  intros fuel function_func arg_funcs env h h1 args h2 Hf Hargs.
  unfold run in *. cbn [exec]. rewrite Hf, Hargs. apply Happly.
Qed.

(** X17.  A function declared by a constant declaration can refer to
    itself.  The function value holds the environment of the declaration,
    and the declaration writes the function value into the slot of the
    name in the innermost frame of that same environment.  The slot then
    stays as it is through every call, through every run in an
    environment with another innermost frame, and through every run that
    does not declare the name; and in every store in which the slot holds
    the function value, the name looks up to the function value from
    every environment that reaches the frame through frames without the
    name - the frame of a call of the function, at any depth of the
    recursion, and the blocks inside its body. *)
Theorem function_sees_itself fuel name vars locals body l e (h : heap number) fr :
  h !! l = Some fr →
  well_formed_frame fr →
  name ∈ frame_names fr →
  ∃ h2 fr2,
    run host fuel (XConst name (XFunDef vars locals body)) (l :: e) h =
    Ok (VUndefined, h2) ∧
    length h2 = length h ∧
    h2 !! l = Some fr2 ∧
    slot_of name fr2 (VCompound vars locals body (l :: e)) ∧
    (∀ fuel' f args h3 fr3 v h4,
       h3 !! l = Some fr3 →
       apply_compound fuel' f args h3 = Ok (v, h4) →
       h4 !! l = Some fr3) ∧
    (∀ fuel' x env' h3 fr3 v h4,
       h3 !! l = Some fr3 →
       slot_of name fr3 (VCompound vars locals body (l :: e)) →
       head env' ≠ Some l ∨ no_declaration name x →
       run host fuel' x env' h3 = Ok (v, h4) →
       ∃ fr4, h4 !! l = Some fr4 ∧
              slot_of name fr4 (VCompound vars locals body (l :: e))) ∧
    (∀ h3 fr3 inner,
       h3 !! l = Some fr3 →
       slot_of name fr3 (VCompound vars locals body (l :: e)) →
       Forall (lacks name h3) inner →
       lookup_name_value name (inner ++ l :: e) h3 =
       Ok (VCompound vars locals body (l :: e))).
Proof.
  intros Hl Hwf Hin.
  destruct (set_name_value_slot name (VCompound vars locals body (l :: e))
              l e h fr Hl Hwf Hin)
    as (h2 & fr2 & Hset & Hlen & Hl2 & Hslot).
  exists h2, fr2. split; [|split; [exact Hlen|split; [exact Hl2|]]].
  { unfold run. cbn [exec]. unfold make_compound_function.
    by rewrite Hset. }
  split; [exact Hslot|]. split; [|split].
  - intros fuel' f args h3 fr3 v h4 Hl3 Hcall.
    by apply (frames_kept_lookup h3 h4 l fr3
                (execute_application_frames _ _ _ _ _ _ Hcall)).
  - intros fuel' x env' h3 fr3 v h4 Hl3 Hslot3 [Hhead|Hno] Hrun.
    + exists fr3. split; [|exact Hslot3].
      destruct (run_frames _ _ _ _ _ _ Hrun) as (_ & Hother & _).
      rewrite Hother; [exact Hl3| |exact Hhead].
      by apply lookup_lt_Some with fr3.
    + by apply (run_keeps_slot name fuel' x env' h3 v h4 l fr3).
  - intros h3 fr3 inner Hl3 Hslot3 Hinner. unfold lookup_name_value.
    induction Hinner as [|l' inner (fr' & Hl' & Hwf' & Hnot') _ IH].
    + cbn [app].
      by rewrite (env_loop_innermost name h3 l e fr3 _ Hl3 Hslot3).
    + rewrite <- app_comm_cons.
      by rewrite (env_loop_enclosing name h3 l' _ fr' Hl' Hnot' Hwf').
Qed.

(** X18.  No program changes the global frame: after a top-level
    evaluation the frame of the primitive functions and constants is the
    one that [setup_environment] built, and every name looks up in the
    global environment to what it looked up to before. *)
Theorem global_frame_unchanged fuel (s : stmt number) v h :
  eval_toplevel math_PI host fuel s = Ok (v, h) →
  h !! 0 = the_global_heap math_PI !! 0 ∧
  ∀ name,
    lookup_name_value name (the_global_environment math_PI) h =
    lookup_name_value name (the_global_environment math_PI)
      (the_global_heap math_PI).
Proof.
  intros H. unfold eval_toplevel, evaluate, make_block in H.
  cbn [analyze] in H.
  destruct (local_names s) as [locals| |]; try discriminate.
  destruct (analyze s) as [body_func| |]; try discriminate.
  destruct (run host fuel (XBlock locals body_func) _ _)
    as [[w h1]| |] eqn:Hrun; try discriminate.
  destruct (is_return_value w); [discriminate|]. injection H as _ <-.
  unfold run in Hrun. cbn [exec] in Hrun.
  destruct (extend_environment _ _ _ _) as [[env1 h0]| |] eqn:Hext;
    try discriminate.
  apply (exec_frames _ (execute_application_frames fuel)) in Hrun.
  destruct (frames_kept_extend _ _ _ _ _ _ _ Hext Hrun) as (_ & Hother & _).
  assert (H0 : h1 !! 0 = the_global_heap math_PI !! 0).
  { apply Hother; [simpl; lia|done]. }
  split; [exact H0|].
  intros name. apply env_loop_same_frames.
  intros l Hl. apply list_elem_of_singleton in Hl as ->. exact H0.
Qed.

End Coverage.

(** ** Instances of the further properties *)

Lemma local_names_characterised_witness :
  local_names (number:=Z)
    (Sequence [ ConstantDeclaration "x" (Examples.num 1);
                Block (ConstantDeclaration "x" (Examples.num 2));
                ConstantDeclaration "y" (Examples.num 3) ]) =
  Ok ["x"; "y"].
Proof.
  apply (proj2 (local_names_characterised _ _)).
  split; [reflexivity|].
  apply NoDup_cons. split; [|apply NoDup_singleton].
  intros Hin. apply list_elem_of_singleton in Hin. discriminate.
Defined.

Lemma insert_all_first_collision_witness :
  insert_all (number:=Z) ["a"; "a"] ["b"] = Ok ["a"; "a"; "b"] ∧
  insert_all (number:=Z) ["a"; "b"; "c"] ["c"; "b"] =
  Err (MultipleDeclarations "b").
Proof.
  split.
  - apply (proj2 (proj1 (insert_all_first_collision ["a"; "a"] ["b"]) _)).
    split; [reflexivity|].
    intros x Hx Hb. apply list_elem_of_singleton in Hb as ->.
    repeat (apply elem_of_cons in Hx as [Hx|Hx]; [discriminate|]).
    inversion Hx.
  - apply (proj2 (proj1 (proj2 (insert_all_first_collision
                                  ["a"; "b"; "c"] ["c"; "b"])) _)).
    exists ["a"], "b", ["c"]. split; [reflexivity|].
    split; [|split; [right; left|reflexivity]].
    intros y Hy Hin. apply list_elem_of_singleton in Hy as ->.
    repeat (apply elem_of_cons in Hin as [Hin|Hin]; [discriminate|]).
    inversion Hin.
Defined.

Lemma analyze_accepts_witness :
  (∃ x, analyze Examples.closure_program = Ok x) ∧
  ¬ (∃ x, analyze (ConditionalExpression (Literal (LBoolean true))
                     (Examples.num 1) (Block Examples.duplicate_body)) =
          Ok x).
Proof.
  split.
  - apply (proj2 (proj1 (analyze_accepts Examples.closure_program))).
    exact I.
  - intros H.
    exact (proj1 (proj1 (analyze_accepts
                    (ConditionalExpression (Literal (LBoolean true))
                       (Examples.num 1) (Block Examples.duplicate_body))))
             H).
Defined.

Lemma set_then_lookup_witness :
  ∃ h', set_name_value "x" (VNumber 1%Z) [0]
          [make_frame ["y"; "x"] [(VNoValueYet, false); (VNoValueYet, false)]] =
        Ok h' ∧
        length h' =
        length [make_frame ["y"; "x"]
                  [(VNoValueYet (number:=Z), false); (VNoValueYet, false)]] ∧
        (VNumber 1%Z ≠ VNoValueYet →
         lookup_name_value "x" [0] h' = Ok (VNumber 1%Z)).
Proof.
  apply (set_then_lookup "x" (VNumber 1%Z) 0 []
           [make_frame ["y"; "x"] [(VNoValueYet, false); (VNoValueYet, false)]]
           (make_frame ["y"; "x"] [(VNoValueYet, false); (VNoValueYet, false)])
           eq_refl eq_refl).
  right. left.
Defined.

Lemma set_keeps_other_names_witness :
  lookup_name_value "y" [0]
    [make_frame ["y"; "x"] [(VNumber 7%Z, false); (VNumber 1%Z, false)]] =
  lookup_name_value "y" [0]
    [make_frame ["y"; "x"] [(VNumber 7%Z, false); (VNoValueYet, false)]].
Proof.
  apply (set_keeps_other_names "x" (VNumber 1%Z) [0]
           [make_frame ["y"; "x"] [(VNumber 7%Z, false); (VNoValueYet, false)]]
           [make_frame ["y"; "x"] [(VNumber 7%Z, false); (VNumber 1%Z, false)]]
           "y" eq_refl).
  discriminate.
Defined.

Lemma set_only_innermost_witness :
  set_name_value "x" (VNumber 1%Z) [1; 0]
    [ make_frame ["x"] [(VNoValueYet, false)];
      make_frame ["y"] [(VNoValueYet, false)] ] =
  Err InternalNameNotFound.
Proof.
  apply (set_only_innermost "x" (VNumber 1%Z) 1 [0]
           [ make_frame ["x"] [(VNoValueYet, false)];
             make_frame ["y"] [(VNoValueYet, false)] ]
           (make_frame ["y"] [(VNoValueYet, false)]) eq_refl eq_refl).
  intros Hin. apply list_elem_of_singleton in Hin. discriminate.
Defined.

Lemma call_keeps_frames_witness :
  lookup_name_value "x" [0]
    [ make_frame ["x"] [(VNumber 1%Z, false)];
      make_frame ["x"] [(VNumber 2%Z, false)] ] =
  lookup_name_value "x" [0] [ make_frame ["x"] [(VNumber 1%Z, false)] ].
Proof.
  refine (proj2 (proj2 (call_keeps_frames integer_host 1
            (VCompound ["x"] [] (XReturn (XName "x")) [0])
            [VNumber 2%Z]
            [ make_frame ["x"] [(VNumber 1%Z, false)] ]
            (VNumber 2%Z)
            [ make_frame ["x"] [(VNumber 1%Z, false)];
              make_frame ["x"] [(VNumber 2%Z, false)] ] eq_refl))
          "x" [0] _).
  constructor; [simpl; lia|constructor].
Defined.

Lemma run_keeps_frames_witness :
  [ make_frame ["x"] [(VNumber 1%Z, false)];
    make_frame ["x"] [(VNumber 2%Z, false)] ] !! 0 =
  [ make_frame ["x"] [(VNumber 1%Z, false)];
    make_frame ["x"] [(VNoValueYet, false)] ] !! 0.
Proof.
  refine (proj1 (proj2 (run_keeps_frames integer_host 0
            (XConst "x" (XSelf (LNumber 2%Z))) [1; 0]
            [ make_frame ["x"] [(VNumber 1%Z, false)];
              make_frame ["x"] [(VNoValueYet, false)] ]
            VUndefined
            [ make_frame ["x"] [(VNumber 1%Z, false)];
              make_frame ["x"] [(VNumber 2%Z, false)] ] eq_refl))
          0 _ _).
  - simpl. lia.
  - discriminate.
Defined.

Lemma block_keeps_outer_bindings_witness :
  lookup_name_value "x" [0]
    [ make_frame ["x"] [(VNumber 1%Z, false)];
      make_frame ["x"] [(VNumber 2%Z, false)] ] =
  lookup_name_value "x" [0] [ make_frame ["x"] [(VNumber 1%Z, false)] ].
Proof.
  refine (block_keeps_outer_bindings integer_host 0 ["x"]
            (XConst "x" (XSelf (LNumber 2%Z))) [0]
            [ make_frame ["x"] [(VNumber 1%Z, false)] ]
            VUndefined
            [ make_frame ["x"] [(VNumber 1%Z, false)];
              make_frame ["x"] [(VNumber 2%Z, false)] ] eq_refl _ "x").
  constructor; [simpl; lia|constructor].
Defined.

Lemma frames_stay_well_formed_witness :
  Forall well_formed_frame
    [ make_frame ["x"] [(VNumber 1%Z, false)];
      make_frame ["x"] [(VNumber 2%Z, false)] ].
Proof.
  refine (proj1 (frames_stay_well_formed integer_PI integer_host 0)
            (XBlock ["x"] (XConst "x" (XSelf (LNumber 2%Z)))) [0]
            [ make_frame ["x"] [(VNumber 1%Z, false)] ]
            VUndefined _ _ eq_refl).
  constructor; [reflexivity|constructor].
Defined.

Lemma declaration_then_use_witness :
  ∃ h2,
    run integer_host 0
      (XConst "x" (XCond (XSelf (LBoolean true)) (XSelf (LNumber 1%Z))
                     (XSelf (LNumber 2%Z)))) [0]
      [make_frame ["x"] [(VNoValueYet, false)]] =
    Ok (VUndefined, h2) ∧
    lookup_name_value "x" [0] h2 = Ok (VNumber 1%Z).
Proof.
  apply (declaration_then_use integer_host 0 "x"
           (XCond (XSelf (LBoolean true)) (XSelf (LNumber 1%Z))
              (XSelf (LNumber 2%Z))) 0 []
           [make_frame ["x"] [(VNoValueYet, false)]]
           (make_frame ["x"] [(VNoValueYet, false)])
           (VNumber 1%Z)
           [make_frame ["x"] [(VNoValueYet, false)]] eq_refl eq_refl).
  - left.
  - reflexivity.
  - discriminate.
Defined.

Lemma forward_reference_witness :
  analyze (Block (Sequence [ ConstantDeclaration "b" (Examples.num 1);
                             Examples.call "display" [Name "a"];
                             ConstantDeclaration "a" (Examples.num 2) ])) =
  Ok (XBlock ["b"; "a"]
        (XSeq (XSeq (XConst "b" (XSelf (LNumber 1%Z)))
                 (XApp (XName "display") [XName "a"]))
           (XConst "a" (XSelf (LNumber 2%Z))))) ∧
  run integer_host 0
    (XBlock ["b"; "a"]
       (XSeq (XSeq (XConst "b" (XSelf (LNumber 1%Z)))
                (XApp (XName "display") [XName "a"]))
          (XConst "a" (XSelf (LNumber 2%Z)))))
    (the_global_environment integer_PI) (the_global_heap integer_PI) =
  Err (NameUsedBeforeDeclaration "a") ∧
  execute_application integer_host 1
    (VCompound [] ["a"]
       (XSeq (XReturn (XName "a")) (XConst "a" (XSelf (LNumber 1%Z)))) [])
    [] [] =
  Err (NameUsedBeforeDeclaration "a").
Proof.
  split; [reflexivity|]. split.
  - apply (proj1 (proj2 (proj2 (proj2 (forward_reference integer_host "a"))))).
    + right. left.
    + apply reaches_first.
      eapply reaches_second;
        [exact I|reflexivity|reflexivity|].
      change [XName (number:=Z) "a"] with ([] ++ XName (number:=Z) "a" :: []).
      eapply reaches_operand;
        [exact I|reflexivity|constructor|reflexivity|].
      apply reaches_name.
  - apply (proj2 (proj2 (proj2 (proj2 (forward_reference integer_host "a"))))).
    + reflexivity.
    + intros p Hp. inversion Hp.
    + left.
    + intros Hin. inversion Hin.
    + apply reaches_first, reaches_return, reaches_name.
Defined.

Lemma parameter_lookup_witness :
  lookup_name_value "a" [0]
    ([] ++ [make_frame (["a"; "a"] ++ [])
              (map (λ x, (x, false))
                 ([VNumber 1%Z; VNumber 2%Z] ++
                  map (λ _, no_value_yet) ([] : list string)))]) =
  Ok (VNumber 1%Z).
Proof.
  apply (parameter_lookup "a" ["a"; "a"] [] [VNumber 1%Z; VNumber 2%Z]
           [] [] 0 (VNumber 1%Z)).
  - reflexivity.
  - intros j Hj. lia.
  - reflexivity.
  - discriminate.
Defined.

Lemma global_environment_bindings_witness :
  lookup_name_value "+" (the_global_environment integer_PI)
    (the_global_heap integer_PI) = Ok (VPrimitive prim_plus) ∧
  lookup_name_value "sqrt" (the_global_environment integer_PI)
    (the_global_heap integer_PI) = Err (UnboundName "sqrt").
Proof.
  split.
  - apply (proj1 (global_environment_bindings integer_PI)).
    right. right. left.
  - apply (proj2 (proj2 (proj2 (global_environment_bindings integer_PI)))).
    simpl. intros Hin.
    repeat (apply elem_of_cons in Hin as [Hin|Hin]; [discriminate|]).
    inversion Hin.
Defined.

Lemma application_error_order_witness :
  run integer_host 0
    (XApp (XSelf (LNumber 0%Z))
       ([XSelf (LNumber 1%Z)] ++ XName "nope" :: [XName "never"])) [] [] =
  Err (UnboundName "nope").
Proof.
  apply (proj2 (application_error_order integer_host 0
                  (XSelf (LNumber 0%Z)) [] [])
           (VNumber 0%Z) [] [XSelf (LNumber 1%Z)] [VNumber 1%Z] []
           (XName "nope") [XName "never"] (UnboundName "nope"));
    reflexivity.
Defined.

Lemma apply_non_function_witness :
  run integer_host 0
    (XApp (XSelf (LNumber 1%Z)) [XSelf (LNumber 2%Z)]) [] [] =
  Err UnknownFunctionType.
Proof.
  refine (proj2 (apply_non_function integer_host (VNumber 1%Z) _ _)
            0 (XSelf (LNumber 1%Z)) [XSelf (LNumber 2%Z)] [] [] []
            [VNumber 2%Z] [] eq_refl eq_refl); discriminate.
Defined.

Lemma function_sees_itself_witness :
  let f := VCompound ["n"] [] (XReturn (XApp (XName "f") [XName "n"])) [0] in
  let h3 := [ make_frame ["f"] [(f, false)];
              make_frame ["n"] [(VNumber 2%Z, false)];
              make_frame ["n"] [(VNumber 1%Z, false)] ] in
  run integer_host 0
    (XConst "f" (XFunDef ["n"] [] (XReturn (XApp (XName "f") [XName "n"]))))
    [0] [make_frame ["f"] [(VNoValueYet, false)]] =
  Ok (VUndefined, [make_frame ["f"] [(f, false)]]) ∧
  lookup_name_value "f" ([2] ++ 0 :: []) h3 = Ok f.
Proof.
  intros f h3.
  destruct (function_sees_itself integer_host 0 "f" ["n"] []
              (XReturn (XApp (XName "f") [XName "n"])) 0 []
              [make_frame ["f"] [(VNoValueYet, false)]]
              (make_frame ["f"] [(VNoValueYet, false)]) eq_refl eq_refl)
    as (h2 & fr2 & Hrun & _ & _ & _ & _ & _ & Hlookup).
  - left.
  - split; [reflexivity|].
    apply (Hlookup h3 (make_frame ["f"] [(f, false)]) [2] eq_refl).
    + exists 0, false. split; [reflexivity|]. split; [|reflexivity].
      intros j Hj. lia.
    + constructor; [|constructor].
      eexists. split; [reflexivity|]. split; [reflexivity|].
      simpl. intros Hin. apply list_elem_of_singleton in Hin. discriminate.
Defined.

Lemma global_frame_unchanged_witness :
  lookup_name_value "display" (the_global_environment integer_PI)
    (the_global_heap integer_PI ++
     [make_frame ["display"] [(VNumber 1%Z, false)]]) =
  lookup_name_value "display" (the_global_environment integer_PI)
    (the_global_heap integer_PI).
Proof.
  exact (proj2 (global_frame_unchanged integer_PI integer_host 0
                  (ConstantDeclaration "display" (Examples.num 1))
                  VUndefined
                  (the_global_heap integer_PI ++
                   [make_frame ["display"] [(VNumber 1%Z, false)]])
                  eq_refl) "display").
Defined.
